(** * go-netty: the varint length-field frame codec

  A shallow embedding of [codec/frame/varint_length.go] and of the pieces
  of Go's [encoding/binary], [io] and [bytes] packages that it calls,
  followed by the properties of the codec.

  Conventions.
  - A Go [byte] is a [Z] in [0, 256); a [[]byte] is a [list Z].
  - [uint64] values are [Z] in [0, 2^64) and [int]/[int64] values are [Z]
    in [-2^63, 2^63) (Go's [int] on a 64-bit platform); every conversion
    and every shift writes its wrap-around out.
  - A panic is a value of the error type; the handlers run in a small
    state-and-error monad whose state is the list of messages already
    handed to the next pipeline handler. *)

From Stdlib Require Import ZArith List Lia String.
From stdpp Require Import base list.
From Equations Require Import Equations.
Import ListNotations.

Local Open Scope Z_scope.

(** ** Machine integers *)

Module GoInt.

Definition MaxInt : Z := 2 ^ 63 - 1.

(** [uint64(z)]: conversion to an unsigned 64-bit integer. *)
Definition uint64 (z : Z) : Z := z mod 2 ^ 64.

(** [int64(z)] and [int(z)]: conversion to a signed 64-bit integer. *)
Definition int64 (z : Z) : Z := (z + 2 ^ 63) mod 2 ^ 64 - 2 ^ 63.

(** [byte(z)]: truncation to the low eight bits. *)
Definition byte (z : Z) : Z := z mod 256.

(** [v << s] on [uint64] operands. *)
Definition shl64 (v s : Z) : Z := uint64 (Z.shiftl v s).

Definition is_byte (b : Z) : Prop := 0 <= b < 256.
Definition is_uint64 (z : Z) : Prop := 0 <= z < 2 ^ 64.
Definition is_int (z : Z) : Prop := - 2 ^ 63 <= z <= MaxInt.

(** [len(s)] as a Go [int]. *)
Definition len (s : list Z) : Z := Z.of_nat (length s).

End GoInt.
Import GoInt.

(** ** io: errors and readers *)

(** The Go [error] values the codec can meet.  First the values of the
    libraries: [io.EOF], [io.ErrUnexpectedEOF], [io.ErrNoProgress], the
    overflow error of [encoding/binary], and any other failure of a byte
    source.  Then the errors the codec builds with [fmt.Errorf], named after
    the condition each stands for and listed with its format string.  Last,
    the run-time panics of Go itself. *)
Inductive error : Type :=
| EOF
| ErrUnexpectedEOF
| ErrNoProgress
| errOverflow
| ErrSource (msg : string)
| FrameTooLarge (frameLength maxFrameLength : Z)
    (* "frame length too large, frameLength(%d) > maxFrameLength(%d)" *)
| IncompletePacket
    (* "incomplete packet" *)
| UnsupportedMessageType (T : string)
    (* "unrecognized type: %T" *)
| InvalidMaxFrameLength
    (* "maxFrameLength must be a positive integer" *)
| IndexOutOfRange
| SliceBoundsOutOfRange.

Definition is_EOF (e : error) : bool :=
  match e with EOF => true | _ => false end.

Module io.

(** [io.Reader]: [Read r k] is [r.Read(p)] with [len(p) = k]; it returns the
    reader after the call, the bytes stored in [p] and the error. *)
Class Reader (R : Type) : Type :=
  Read : R -> nat -> R * (list Z * option error).

(** [io.ByteReader]. *)
Class ByteReader (R : Type) : Type :=
  ReadByte : R -> R * (Z + error).

(** Modelled from the spec: the "read source" capability (sequential byte
    read, reporting end-of-data) that the transport supplies; no reader is
    under src/.  A byte source is the bytes it still holds and the error its
    [Read] reports once they are used up ([EOF] for a clean end of data). *)
Record Stream : Type := mkStream {
  pending : list Z;
  closing : error
}.

#[global] Instance Stream_Reader : Reader Stream := fun r k =>
  match k, pending r with
  | O, _ => (r, ([], None))
  | _, [] => (r, ([], Some (closing r)))
  | _, bs => (mkStream (drop k bs) (closing r), (take k bs, None))
  end.

(** Modelled from the spec: [ioutil.ReadAll(r)], Go's library and not under
    src/, on a [Stream]: the source is "fully drained" up to the end of the
    data; a clean [EOF] is not reported as an error, any other error is. *)
Definition ReadAll (r : Stream) : Stream * (list Z * option error) :=
  (mkStream [] (closing r),
   (pending r, if is_EOF (closing r) then None else Some (closing r))).

(** Modelled from the spec: [io.LimitedReader] and [io.LimitReader(r, n)],
    Go's library and not under src/: the "capped reader" over the same
    stream. *)
Record LimitedReader (R : Type) : Type := mkLimitedReader {
  R_ : R;
  N : Z
}.
Arguments mkLimitedReader {R} _ _.
Arguments R_ {R} _.
Arguments N {R} _.

Definition LimitReader {R : Type} (r : R) (n : Z) : LimitedReader R :=
  mkLimitedReader r n.

(** Modelled from the spec: the [Read] method of [LimitedReader], which
    "reads at most frameLength further bytes from the same stream and then
    signals end-of-data"; in Go's library it is
<<
    if l.N <= 0 { return 0, EOF }
    if int64(len(p)) > l.N { p = p[0:l.N] }
    n, err = l.R.Read(p)
    l.N -= int64(n)
>> *)
#[global] Instance LimitedReader_Reader {R : Type} `{Reader R}
  : Reader (LimitedReader R) := fun l k =>
  if N l <=? 0 then (l, ([], Some EOF))
  else
    let k' := if N l <? Z.of_nat k then Z.to_nat (N l) else k in
    let '(r', (bs, err)) := Read (R_ l) k' in
    (mkLimitedReader r' (N l - len bs), (bs, err)).

(** A downstream consumer: successive [Read] calls with the buffer sizes
    [ks]; the bytes obtained, in order, and the reader afterwards. *)
Fixpoint Reads {R : Type} `{Reader R} (r : R) (ks : list nat)
  : R * list Z :=
  match ks with
  | [] => (r, [])
  | k :: ks' =>
      let '(r', (bs, _)) := Read r k in
      let '(r'', rest) := Reads r' ks' in
      (r'', bs ++ rest)
  end.

End io.

(** ** bytes: the reader over a byte slice *)

Module bytes.

(** Modelled from the spec: [bytes.Reader], Go's library and not under
    src/: the "view over the remaining bytes", a slice and a read offset. *)
Record Reader : Type := mkReader {
  s : list Z;
  i : Z
}.

Definition NewReader (b : list Z) : Reader := mkReader b 0.

(** The [Len] method: the number of unread bytes. *)
Definition Len (r : Reader) : Z :=
  if len (s r) <=? i r then 0 else len (s r) - i r.

(** The unread portion of the slice. *)
Definition unread (r : Reader) : list Z := drop (Z.to_nat (i r)) (s r).

End bytes.

(** ** encoding/binary: unsigned varints *)

Module binary.

Definition MaxVarintLen64 : nat := 10.

(** Modelled from the spec: [binary.PutUvarint], Go's library and not under
    src/: "each byte's low 7 bits carrying payload bits and the high bit set
    on every byte except the last".  Its loop in Go's library is
<<
    i := 0
    for x >= 0x80 { buf[i] = byte(x) | 0x80; x >>= 7; i++ }
    buf[i] = byte(x)
    return i + 1
>>
    [None] is the run-time panic of an index out of range. *)
Equations? PutUvarint_loop (buf : list Z) (i : nat) (x : Z)
  : option (list Z * nat) by wf (Z.to_nat x) lt :=
  PutUvarint_loop buf i x with Z_le_dec 128 x := {
    | left _ =>
        if (i <? length buf)%nat
        then PutUvarint_loop (<[i := Z.lor (byte x) 128]> buf) (S i)
                             (Z.shiftr x 7)
        else None
    | right _ =>
        if (i <? length buf)%nat
        then Some (<[i := byte x]> buf, S i)
        else None }.
Proof.
  rewrite Z.shiftr_div_pow2 by lia.
  change (2 ^ 7) with 128.
  assert (x / 128 < x) by (apply Z.div_lt; lia).
  assert (0 <= x / 128) by (apply Z.div_pos; lia).
  lia.
Qed.

Definition PutUvarint (buf : list Z) (x : Z) : option (list Z * nat) :=
  PutUvarint_loop buf 0 x.

(** Modelled from the spec: [binary.Uvarint], Go's library and not under
    src/: "reading bytes until one is found with the high bit clear", giving
    the value and the count of bytes consumed.  The call at line 58 takes the
    pair as it comes, so the library's convention for a failed decode is kept:
    value [0] with count [0] when the buffer ends before the last byte, and
    value [0] with a negative count on overflow.  Its loop, over
    [for i, b := range buf], is
<<
    if i == MaxVarintLen64 { return 0, -(i + 1) }
    if b < 0x80 {
      if i == MaxVarintLen64-1 && b > 1 { return 0, -(i + 1) }
      return x | uint64(b)<<s, i + 1
    }
    x |= uint64(b&0x7f) << s
    s += 7
>>
    and [return 0, 0] when the range is exhausted. *)
Fixpoint Uvarint_loop (buf : list Z) (i : nat) (x s : Z) : Z * Z :=
  match buf with
  | [] => (0, 0)
  | b :: rest =>
      if (i =? MaxVarintLen64)%nat then (0, - (Z.of_nat i + 1))
      else if b <? 128 then
        if ((i =? MaxVarintLen64 - 1)%nat && (1 <? b))%bool
        then (0, - (Z.of_nat i + 1))
        else (Z.lor x (shl64 b s), Z.of_nat i + 1)
      else Uvarint_loop rest (S i) (Z.lor x (shl64 (Z.land b 127) s)) (s + 7)
  end.

Definition Uvarint (buf : list Z) : Z * Z := Uvarint_loop buf 0 0 0.

(** Modelled from the spec: [binary.ReadUvarint], Go's library and not
    under src/: the same decode over a byte source, which fails "if the
    terminating byte is never found within the maximum width, or if the
    underlying source is exhausted mid-sequence".  [k] counts the iterations
    that remain of [for i := 0; i < MaxVarintLen64; i++], whose body is
<<
    b, err := r.ReadByte()
    if err != nil {
      if i > 0 && err == io.EOF { err = io.ErrUnexpectedEOF }
      return x, err
    }
    if b < 0x80 {
      if i == MaxVarintLen64-1 && b > 1 { return x, errOverflow }
      return x | uint64(b)<<s, nil
    }
    x |= uint64(b&0x7f) << s
    s += 7
>>
    and [return x, errOverflow] after the loop. *)
Fixpoint ReadUvarint_loop {R : Type} `{io.ByteReader R}
    (k i : nat) (r : R) (x s : Z) : R * (Z * option error) :=
  match k with
  | O => (r, (x, Some errOverflow))
  | S k' =>
      match io.ReadByte r with
      | (r', inr err) =>
          (r', (x, Some (if ((0 <? i)%nat && is_EOF err)%bool
                         then ErrUnexpectedEOF else err)))
      | (r', inl b) =>
          if b <? 128 then
            if ((i =? MaxVarintLen64 - 1)%nat && (1 <? b))%bool
            then (r', (x, Some errOverflow))
            else (r', (Z.lor x (shl64 b s), None))
          else ReadUvarint_loop k' (S i) r'
                 (Z.lor x (shl64 (Z.land b 127) s)) (s + 7)
      end
  end.

Definition ReadUvarint {R : Type} `{io.ByteReader R} (r : R)
  : R * (Z * option error) :=
  ReadUvarint_loop MaxVarintLen64 0 r 0 0.

End binary.


(** ** Panics and the handler monad *)

(** A call returns, or panics with an error value. *)
Inductive result (A : Type) : Type :=
| Ok (a : A)
| Panic (e : error).
Arguments Ok {A} _.
Arguments Panic {A} _.

(** A handler body: it starts from the messages already handed to the next
    handler, may hand over more, and returns or panics. *)
Definition Handler (Out A : Type) : Type := list Out -> list Out * result A.

Definition ret {Out A : Type} (a : A) : Handler Out A :=
  fun fired => (fired, Ok a).

Definition bind {Out A B : Type} (c : Handler Out A) (k : A -> Handler Out B)
  : Handler Out B :=
  fun fired =>
    match c fired with
    | (fired', Ok a) => k a fired'
    | (fired', Panic e) => (fired', Panic e)
    end.

Definition panic {Out A : Type} (e : error) : Handler Out A :=
  fun fired => (fired, Panic e).

(** [ctx.HandleRead(m)] and [ctx.HandleWrite(m)]: hand [m] to the next
    handler of the pipeline. *)
Definition fire {Out : Type} (m : Out) : Handler Out unit :=
  fun fired => (fired ++ [m], Ok tt).

Definition lift {Out A : Type} (r : result A) : Handler Out A :=
  fun fired => (fired, r).

Declare Scope handler_scope.
Delimit Scope handler_scope with handler.
Notation "x <- c ;; k" := (bind c (fun x => k))
  (at level 100, c at next level, right associativity) : handler_scope.
Notation "c ;; k" := (bind c (fun _ => k))
  (at level 100, right associativity) : handler_scope.

(** Go's slice expressions [r[n:]] and [r[:n]]; the bounds are checked at
    run time. *)
Definition slice_from (r : list Z) (n : Z) : result (list Z) :=
  if ((0 <=? n) && (n <=? len r))%bool
  then Ok (drop (Z.to_nat n) r)
  else Panic SliceBoundsOutOfRange.

Definition slice_to (r : list Z) (n : Z) : result (list Z) :=
  if ((0 <=? n) && (n <=? len r))%bool
  then Ok (take (Z.to_nat n) r)
  else Panic SliceBoundsOutOfRange.

(** ** utils *)

Module utils.

(** Modelled from the spec: the package [utils] of the repository is not
    under src/.  Every failure is "surfaced immediately to the caller as a
    hard failure": [Assert(err)] panics with a non-nil [err] and returns
    otherwise. *)
Definition Assert {Out : Type} (err : option error) : Handler Out unit :=
  match err with
  | Some e => panic e
  | None => ret tt
  end.

(** Modelled from the spec: [AssertIf(cond, msg, ...)] of the absent package
    [utils] panics with the formatted message when [cond] holds. *)
Definition AssertIf {Out : Type} (cond : bool) (e : error)
  : Handler Out unit :=
  if cond then panic e else ret tt.

(** Modelled from the spec: [AssertBytes(b, err)] of the absent package
    [utils] returns [b] unless [err] is non-nil; a failed drain is
    "propagated, not masked". *)
Definition AssertBytes {Out : Type} (r : list Z * option error)
  : Handler Out (list Z) :=
  (Assert (snd r) ;; ret (fst r))%handler.

(** Modelled from the spec: [NewByteReader(r)] of the absent package [utils]
    gives the "sequential byte read, reporting end-of-data" over [r]: one
    [Read] into a one-byte buffer. *)
#[global] Instance NewByteReader {R : Type} `{io.Reader R}
  : io.ByteReader R := fun r =>
  match io.Read r 1%nat with
  | (r', (b :: _, _)) => (r', inl b)
  | (r', ([], Some err)) => (r', inr err)
  | (r', ([], None)) => (r', inr ErrNoProgress)
  end.

End utils.

(** ** codec/frame: the varint length-field codec *)

Module frame.
Import binary.

(** [netty.Message] as the two type switches see it: an [io.Reader], a
    [[]byte], or a value of any other dynamic type [T]. *)
Inductive Message : Type :=
| MsgReader (r : io.Stream)
| MsgBytes (r : list Z)
| MsgOther (T : string).

(** What [HandleRead] hands to the next handler: the [io.LimitedReader] over
    the stream it was given, or the [bytes.Reader] over the tail of the
    slice. *)
Inductive View : Type :=
| ViewLimited (l : io.LimitedReader io.Stream)
| ViewBytes (b : bytes.Reader).

Record varintLengthFieldCodec : Type := mkCodec {
  maxFrameLength : Z
}.

Definition VarintLengthFieldCodec (maxFrameLength : Z)
  : result varintLengthFieldCodec :=
  if maxFrameLength <=? 0 then Panic InvalidMaxFrameLength
  else Ok (mkCodec maxFrameLength).

Definition CodecName (v : varintLengthFieldCodec) : string :=
  "varint-length-field-codec"%string.

Definition HandleRead (v : varintLengthFieldCodec) (message : Message)
  : Handler View unit :=
  match message with
  | MsgReader r =>
      let '(r', (frameLength, err)) :=
        ReadUvarint (H := utils.NewByteReader) r in
      (utils.Assert err ;;
       utils.AssertIf (uint64 (maxFrameLength v) <? frameLength)
         (FrameTooLarge frameLength (maxFrameLength v)) ;;
       fire (ViewLimited (io.LimitReader r' (int64 frameLength))))%handler
  | MsgBytes r =>
      let '(frameLength, n) := Uvarint r in
      (utils.AssertIf (uint64 (maxFrameLength v) <? frameLength)
         (FrameTooLarge frameLength (maxFrameLength v)) ;;
       utils.AssertIf (negb (int64 frameLength =? int64 (len r - n)))
         IncompletePacket ;;
       tail <- lift (slice_from r n) ;;
       fire (ViewBytes (bytes.NewReader tail)))%handler
  | MsgOther T =>
      utils.Assert (Some (UnsupportedMessageType T))
  end.

(** A run-time panic of a library call that indexes a buffer. *)
Definition checked {A : Type} (o : option A) : result A :=
  match o with
  | Some a => Ok a
  | None => Panic IndexOutOfRange
  end.

Definition HandleWrite (v : varintLengthFieldCodec) (message : Message)
  : Handler (list (list Z)) unit :=
  (bodyBytes <- match message with
                | MsgBytes r => ret r
                | MsgReader r => utils.AssertBytes (snd (io.ReadAll r))
                | MsgOther T =>
                    utils.Assert (Some (UnsupportedMessageType T)) ;; ret []
                end ;;
   utils.AssertIf (maxFrameLength v <? len bodyBytes)
     (FrameTooLarge (len bodyBytes) (maxFrameLength v)) ;;
   (* encode header *)
   let head := repeat 0 MaxVarintLen64 in
   put <- lift (checked (PutUvarint head (uint64 (len bodyBytes)))) ;;
   header <- lift (slice_to (fst put) (Z.of_nat (snd put))) ;;
   fire [header; bodyBytes])%handler.

End frame.

Import binary frame.

(** ** Reference functions for the proofs *)

(** The unsigned LEB128 bytes of [x]: what [PutUvarint] stores, as a list. *)
Equations? varint (x : Z) : list Z by wf (Z.to_nat x) lt :=
  varint x with Z_le_dec 128 x := {
    | left _ => Z.lor (byte x) 128 :: varint (Z.shiftr x 7)
    | right _ => [byte x] }.
Proof.
  rewrite Z.shiftr_div_pow2 by lia.
  change (2 ^ 7) with 128.
  assert (x / 128 < x) by (apply Z.div_lt; lia).
  assert (0 <= x / 128) by (apply Z.div_pos; lia).
  lia.
Qed.

(** The spec's [MalformedVarint] condition: the errors [ReadUvarint] returns
    for a prefix that does not terminate (within the width, or before the
    source ends). *)
Definition MalformedVarint (e : error) : Prop :=
  e = EOF \/ e = ErrUnexpectedEOF \/ e = errOverflow.

(** [maxFrameLength] as the constructor accepts it: a positive [int]. *)
Definition valid_codec (v : varintLengthFieldCodec) : Prop :=
  exists m, is_int m /\ VarintLengthFieldCodec m = Ok v.

(** The byte length of a payload view: the bound of a limited reader, the
    unread bytes of a slice reader. *)
Definition view_len (w : View) : Z :=
  match w with
  | ViewLimited l => io.N l
  | ViewBytes b => bytes.Len b
  end.

(** * Properties *)

(** ** Bit-level facts *)

Lemma lor_disjoint_add (lo hi s : Z) :
  0 <= s -> 0 <= lo < 2 ^ s -> 0 <= hi ->
  Z.lor lo (Z.shiftl hi s) = lo + hi * 2 ^ s.
Proof.
  intros Hs Hlo Hhi.
  assert (Hdis : Z.land lo (Z.shiftl hi s) = 0).
  { apply Z.bits_inj'. intros n Hn.
    rewrite Z.land_spec, Z.bits_0.
    destruct (Z.lt_ge_cases n s) as [Hlt | Hge].
    - rewrite (Z.shiftl_spec_low hi s n Hlt). apply andb_false_r.
    - rewrite <- (Z.mod_small lo (2 ^ s)) by lia.
      rewrite Z.mod_pow2_bits_high by lia. reflexivity. }
  rewrite <- Z.lxor_lor by exact Hdis.
  rewrite <- Z.add_nocarry_lxor by exact Hdis.
  rewrite Z.shiftl_mul_pow2 by lia. reflexivity.
Qed.

Lemma lor_128 (y : Z) : 0 <= y < 256 -> Z.lor y 128 = y mod 128 + 128.
Proof.
  intros Hy.
  change 128 with (Z.shiftl 1 7) at 1.
  destruct (Z.lt_ge_cases y 128) as [Hlt | Hge].
  - rewrite lor_disjoint_add by lia. rewrite Z.mod_small by lia. lia.
  - replace y with (Z.lor (y - 128) (Z.shiftl 1 7)) at 1
      by (rewrite lor_disjoint_add; lia).
    rewrite <- Z.lor_assoc, Z.lor_diag.
    rewrite lor_disjoint_add by lia.
    Z.div_mod_to_equations; lia.
Qed.

Lemma continuation_byte (x : Z) :
  128 <= Z.lor (byte x) 128 < 256 /\
  Z.land (Z.lor (byte x) 128) 127 = x mod 128.
Proof.
  unfold byte.
  assert (Hb : 0 <= x mod 256 < 256) by (apply Z.mod_pos_bound; lia).
  rewrite lor_128 by exact Hb.
  change 127 with (Z.ones 7). rewrite Z.land_ones by lia.
  change (2 ^ 7) with 128.
  split; Z.div_mod_to_equations; lia.
Qed.

(** ** The varint loops *)

Lemma varint_ge (x : Z) :
  128 <= x -> varint x = Z.lor (byte x) 128 :: varint (Z.shiftr x 7).
Proof.
  intros H. rewrite (varint_equation_1 x).
  destruct (Z_le_dec 128 x); [reflexivity | lia].
Qed.

Lemma varint_lt (x : Z) : x < 128 -> varint x = [byte x].
Proof.
  intros H. rewrite (varint_equation_1 x).
  destruct (Z_le_dec 128 x); [lia | reflexivity].
Qed.

Lemma shiftr_7 (x : Z) : Z.shiftr x 7 = x / 128.
Proof. rewrite Z.shiftr_div_pow2 by lia. reflexivity. Qed.

(** [k] groups of seven bits hold every value below [2^(7k)]. *)
Lemma varint_length_bound (k : nat) :
  forall x, 0 <= x < 2 ^ (7 * Z.of_nat (S k)) ->
            (length (varint x) <= S k)%nat.
Proof.
  induction k as [| k IH]; intros x Hx.
  - rewrite varint_lt by (change (2 ^ (7 * Z.of_nat 1)) with 128 in Hx; lia).
    simpl. lia.
  - destruct (Z_le_dec 128 x) as [Hge | Hlt].
    + rewrite varint_ge by lia. simpl. apply le_n_S, IH.
      rewrite shiftr_7.
      replace (7 * Z.of_nat (S (S k))) with (7 + 7 * Z.of_nat (S k)) in Hx
        by lia.
      rewrite Z.pow_add_r in Hx by lia. change (2 ^ 7) with 128 in Hx.
      split; [apply Z.div_pos; lia |].
      apply Z.div_lt_upper_bound; lia.
    + rewrite varint_lt by lia. simpl. lia.
Qed.

Lemma varint_length_uint64 (x : Z) :
  is_uint64 x -> (length (varint x) <= MaxVarintLen64)%nat.
Proof.
  intros [H0 H1]. apply (varint_length_bound 9).
  split; [lia |]. eapply Z.lt_trans; [exact H1 |]. reflexivity.
Qed.

(** The shape of an encoding: continuation bytes, then one byte below
    [0x80]. *)
Lemma varint_shape (x : Z) :
  0 <= x ->
  exists front final,
    varint x = front ++ [final] /\
    Forall (fun b => 128 <= b < 256) front /\
    0 <= final < 128.
Proof.
  funelim (varint x); intros Hx; clear Heqcall.
  - destruct H as (front & final & Hv & Hf & Hl).
    { rewrite shiftr_7. apply Z.div_pos; lia. }
    exists (Z.lor (byte x) 128 :: front), final.
    rewrite Hv. split; [reflexivity |]. split; [| exact Hl].
    constructor; [apply continuation_byte | exact Hf].
  - exists [], (byte x). split; [reflexivity |]. split; [constructor |].
    unfold byte. rewrite Z.mod_small by lia. lia.
Qed.

(** What [PutUvarint] leaves in the buffer. *)
Lemma PutUvarint_loop_varint (buf : list Z) (i : nat) (x : Z) :
  (i + length (varint x) <= length buf)%nat ->
  exists buf',
    PutUvarint_loop buf i x = Some (buf', (i + length (varint x))%nat) /\
    length buf' = length buf /\
    take (i + length (varint x)) buf' = take i buf ++ varint x.
Proof.
  funelim (PutUvarint_loop buf i x); intros Hroom; clear Heqcall.
  - rewrite varint_ge in * by lia. simpl in Hroom.
    assert (Hi : (i < length buf)%nat) by lia.
    apply Nat.ltb_lt in Hi as Hib. rewrite Hib.
    destruct H as (buf' & Hput & Hlen & Htake).
    { rewrite length_insert. lia. }
    exists buf'. simpl length.
    replace (i + S (length (varint (Z.shiftr x 7))))%nat
      with (S i + length (varint (Z.shiftr x 7)))%nat by lia.
    rewrite Hput, Hlen, length_insert, Htake.
    split; [reflexivity |]. split; [reflexivity |].
    rewrite (take_S_r _ _ (Z.lor (byte x) 128))
      by (apply list_lookup_insert_eq; exact Hi).
    rewrite take_insert_ge by lia.
    rewrite <- app_assoc. reflexivity.
  - rewrite varint_lt in * by lia. simpl in Hroom.
    assert (Hi : (i < length buf)%nat) by lia.
    apply Nat.ltb_lt in Hi as Hib. rewrite Hib.
    exists (<[i := byte x]> buf). simpl length.
    replace (i + 1)%nat with (S i) by lia.
    split; [reflexivity |]. split; [apply length_insert |].
    rewrite (take_S_r _ _ (byte x)) by (apply list_lookup_insert_eq; exact Hi).
    rewrite take_insert_ge by lia. reflexivity.
Qed.

Lemma pow2_split (i : nat) :
  (i <= 8)%nat ->
  2 ^ (64 - 7 * Z.of_nat i) = 128 * 2 ^ (64 - 7 * Z.of_nat (S i)) /\
  2 ^ (7 * Z.of_nat (S i)) = 128 * 2 ^ (7 * Z.of_nat i) /\
  0 < 2 ^ (7 * Z.of_nat i) /\
  0 < 2 ^ (64 - 7 * Z.of_nat (S i)).
Proof.
  intros Hi.
  assert (E1 : 64 - 7 * Z.of_nat i = 7 + (64 - 7 * Z.of_nat (S i))) by lia.
  assert (E2 : 7 * Z.of_nat (S i) = 7 + 7 * Z.of_nat i) by lia.
  split; [rewrite E1, Z.pow_add_r by lia; reflexivity |].
  split; [rewrite E2, Z.pow_add_r by lia; reflexivity |].
  split; apply Z.pow_pos_nonneg; lia.
Qed.

Lemma pow2_whole (i : nat) :
  (i <= 9)%nat ->
  2 ^ (7 * Z.of_nat i) * 2 ^ (64 - 7 * Z.of_nat i) = 2 ^ 64 /\
  0 < 2 ^ (7 * Z.of_nat i).
Proof.
  intros Hi. rewrite <- Z.pow_add_r by lia.
  split; [f_equal; lia | apply Z.pow_pos_nonneg; lia].
Qed.

(** One more group joined to the accumulator. *)
Lemma lor_group (acc v : Z) (i : nat) :
  (i <= 9)%nat -> 0 <= acc < 2 ^ (7 * Z.of_nat i) ->
  0 <= v < 2 ^ (64 - 7 * Z.of_nat i) ->
  Z.lor acc (shl64 v (7 * Z.of_nat i)) = acc + v * 2 ^ (7 * Z.of_nat i).
Proof.
  intros Hi Hacc Hv.
  rewrite <- lor_disjoint_add by lia.
  f_equal. unfold shl64, uint64.
  destruct (pow2_whole i Hi) as [Hw Hp].
  apply Z.mod_small. rewrite Z.shiftl_mul_pow2 by lia. nia.
Qed.

(** The decoder's step on a continuation byte of [x]: the low seven bits
    join the accumulator, the rest of [x] is still to come. *)
Lemma group_step (x acc : Z) (i : nat) :
  128 <= x -> (i <= 9)%nat -> x < 2 ^ (64 - 7 * Z.of_nat i) ->
  0 <= acc < 2 ^ (7 * Z.of_nat i) ->
  let acc' :=
    Z.lor acc (shl64 (Z.land (Z.lor (byte x) 128) 127) (7 * Z.of_nat i)) in
  (S i <= 9)%nat /\
  0 <= x / 128 < 2 ^ (64 - 7 * Z.of_nat (S i)) /\
  0 <= acc' < 2 ^ (7 * Z.of_nat (S i)) /\
  acc' + x / 128 * 2 ^ (7 * Z.of_nat (S i)) = acc + x * 2 ^ (7 * Z.of_nat i).
Proof.
  intros Hx Hi Hlt Hacc acc'.
  assert (Hi8 : (i <= 8)%nat).
  { destruct (Nat.eq_dec i 9%nat) as [-> |]; [| lia].
    change (2 ^ (64 - 7 * Z.of_nat 9)) with 2 in Hlt. lia. }
  destruct (pow2_split i Hi8) as (E1 & E2 & P1 & P2).
  assert (Hm : 0 <= x mod 128 < 128) by (apply Z.mod_pos_bound; lia).
  assert (Hd : x = 128 * (x / 128) + x mod 128) by (apply Z.div_mod; lia).
  assert (Hq : 0 <= x / 128) by (apply Z.div_pos; lia).
  assert (Hacc' : acc' = acc + x mod 128 * 2 ^ (7 * Z.of_nat i)).
  { unfold acc'. destruct (continuation_byte x) as [_ ->].
    apply lor_group; [lia | lia |]. rewrite E1. nia. }
  split; [lia |]. split.
  { split; [exact Hq |]. apply Z.div_lt_upper_bound; lia. }
  rewrite Hacc', E2. split; nia.
Qed.

(** The decoder's step on the final byte of [x]. *)
Lemma final_step (x acc : Z) (i : nat) :
  0 <= x < 128 -> (i <= 9)%nat -> x < 2 ^ (64 - 7 * Z.of_nat i) ->
  0 <= acc < 2 ^ (7 * Z.of_nat i) ->
  byte x = x /\
  ((i =? MaxVarintLen64 - 1)%nat && (1 <? x))%bool = false /\
  Z.lor acc (shl64 x (7 * Z.of_nat i)) = acc + x * 2 ^ (7 * Z.of_nat i).
Proof.
  intros Hx Hi Hlt Hacc.
  split; [unfold byte; apply Z.mod_small; lia |]. split.
  - destruct (Nat.eqb_spec i (MaxVarintLen64 - 1)) as [-> | _];
      [| reflexivity].
    change (2 ^ (64 - 7 * Z.of_nat (MaxVarintLen64 - 1))) with 2 in Hlt.
    simpl. apply Z.ltb_ge. lia.
  - apply lor_group; lia.
Qed.

Lemma Uvarint_loop_varint (x : Z) :
  forall (i : nat) (acc : Z) (rest : list Z),
    0 <= x -> (i <= 9)%nat -> x < 2 ^ (64 - 7 * Z.of_nat i) ->
    0 <= acc < 2 ^ (7 * Z.of_nat i) ->
    Uvarint_loop (varint x ++ rest) i acc (7 * Z.of_nat i) =
    (acc + x * 2 ^ (7 * Z.of_nat i), Z.of_nat (i + length (varint x))).
Proof.
  funelim (varint x); intros i acc rest Hx Hi Hlt Hacc; clear Heqcall.
  - destruct (group_step x acc i l Hi Hlt Hacc) as (Hi' & Hq & Ha & Hsum).
    rewrite shiftr_7 in *.
    cbn [app Uvarint_loop].
    destruct (Nat.eqb_spec i MaxVarintLen64) as [E | _];
      [unfold MaxVarintLen64 in E; lia |].
    destruct (continuation_byte x) as [Hb _].
    destruct (Z.ltb_spec (Z.lor (byte x) 128) 128) as [Hc | _]; [lia |].
    replace (7 * Z.of_nat i + 7) with (7 * Z.of_nat (S i)) by lia.
    rewrite H by (try exact Hi'; try exact Ha; lia).
    rewrite Hsum. f_equal. simpl length. lia.
  - destruct (final_step x acc i ltac:(lia) Hi Hlt Hacc) as (Hb & Hov & Hsum).
    cbn [app Uvarint_loop]. rewrite Hb.
    destruct (Nat.eqb_spec i MaxVarintLen64) as [E | _];
      [unfold MaxVarintLen64 in E; lia |].
    destruct (Z.ltb_spec x 128) as [_ | Hc]; [| lia].
    rewrite Hov, Hsum. f_equal. simpl length. lia.
Qed.

Lemma ReadByte_cons (b : Z) (tl : list Z) (c : error) :
  io.ReadByte (ByteReader := utils.NewByteReader) (io.mkStream (b :: tl) c) =
  (io.mkStream tl c, inl b).
Proof. reflexivity. Qed.

Lemma ReadUvarint_loop_varint (x : Z) :
  forall (k i : nat) (acc : Z) (rest : list Z) (c : error),
    0 <= x -> (i + k = MaxVarintLen64)%nat -> (1 <= k)%nat ->
    x < 2 ^ (64 - 7 * Z.of_nat i) ->
    0 <= acc < 2 ^ (7 * Z.of_nat i) ->
    ReadUvarint_loop (H := utils.NewByteReader) k i
      (io.mkStream (varint x ++ rest) c) acc (7 * Z.of_nat i) =
    (io.mkStream rest c, (acc + x * 2 ^ (7 * Z.of_nat i), None)).
Proof.
  unfold MaxVarintLen64.
  funelim (varint x); intros k i acc rest c Hx Hk Hk1 Hlt Hacc;
    clear Heqcall; (destruct k as [| k]; [lia |]).
  - destruct (group_step x acc i l ltac:(lia) Hlt Hacc)
      as (Hi' & Hq & Ha & Hsum).
    rewrite shiftr_7 in *.
    cbn [app ReadUvarint_loop]. rewrite ReadByte_cons.
    destruct (continuation_byte x) as [Hb _].
    destruct (Z.ltb_spec (Z.lor (byte x) 128) 128) as [Hc | _]; [lia |].
    replace (7 * Z.of_nat i + 7) with (7 * Z.of_nat (S i)) by lia.
    rewrite H by (try exact Ha; lia).
    rewrite Hsum. reflexivity.
  - destruct (final_step x acc i ltac:(lia) ltac:(lia) Hlt Hacc)
      as (Hb & Hov & Hsum).
    cbn [app ReadUvarint_loop]. rewrite ReadByte_cons, Hb.
    destruct (Z.ltb_spec x 128) as [_ | Hc]; [| lia].
    rewrite Hov, Hsum. reflexivity.
Qed.

(** ** The varint codec on 64-bit values *)

Lemma Uvarint_varint (x : Z) (rest : list Z) :
  is_uint64 x -> Uvarint (varint x ++ rest) = (x, len (varint x)).
Proof.
  intros [H0 H1]. unfold Uvarint.
  assert (P0 : 2 ^ (7 * Z.of_nat 0) = 1) by reflexivity.
  assert (P64 : 2 ^ (64 - 7 * Z.of_nat 0) = 2 ^ 64) by reflexivity.
  change 0 with (7 * Z.of_nat 0) at 2.
  rewrite Uvarint_loop_varint by (rewrite ?P0, ?P64; lia).
  rewrite P0. f_equal. lia.
Qed.

Lemma ReadUvarint_varint (x : Z) (rest : list Z) (c : error) :
  is_uint64 x ->
  ReadUvarint (H := utils.NewByteReader) (io.mkStream (varint x ++ rest) c) =
  (io.mkStream rest c, (x, None)).
Proof.
  intros [H0 H1]. unfold ReadUvarint.
  assert (P0 : 2 ^ (7 * Z.of_nat 0) = 1) by reflexivity.
  assert (P64 : 2 ^ (64 - 7 * Z.of_nat 0) = 2 ^ 64) by reflexivity.
  change 0 with (7 * Z.of_nat 0) at 2.
  rewrite ReadUvarint_loop_varint
    by (rewrite ?P0, ?P64; unfold MaxVarintLen64; lia).
  rewrite P0. do 3 f_equal. lia.
Qed.

Lemma PutUvarint_varint (x : Z) :
  is_uint64 x ->
  exists buf',
    PutUvarint (repeat 0 MaxVarintLen64) x =
      Some (buf', length (varint x)) /\
    length buf' = MaxVarintLen64 /\
    take (length (varint x)) buf' = varint x.
Proof.
  intros Hx. unfold PutUvarint.
  pose proof (varint_length_uint64 x Hx) as Hlen.
  destruct (PutUvarint_loop_varint (repeat 0 MaxVarintLen64) 0 x)
    as (buf' & Hput & Hl & Ht).
  { rewrite repeat_length. simpl. exact Hlen. }
  exists buf'. simpl in Hput, Ht. rewrite repeat_length in Hl.
  auto.
Qed.

(** ** What the decoding loops can return *)

Lemma shl64_nonneg (v s : Z) : 0 <= shl64 v s.
Proof. unfold shl64, uint64. apply Z.mod_pos_bound. lia. Qed.

Lemma lor_shl64_nonneg (x v s : Z) : 0 <= x -> 0 <= Z.lor x (shl64 v s).
Proof.
  intros Hx. apply Z.lor_nonneg. split; [exact Hx | apply shl64_nonneg].
Qed.

(** [Uvarint] returns a value with a positive count of the bytes it read, or
    the value [0] with a count that is [0] or negative. *)
Lemma Uvarint_loop_result (buf : list Z) :
  forall (i : nat) (x s fl n : Z),
    0 <= x -> Uvarint_loop buf i x s = (fl, n) ->
    0 <= fl /\
    ((n = 0 /\ fl = 0) \/
     (fl = 0 /\ Z.of_nat i < - n <= Z.of_nat i + len buf) \/
     Z.of_nat i < n <= Z.of_nat i + len buf).
Proof.
  unfold len.
  induction buf as [| b rest IH]; intros i x s fl n Hx Hrun;
    cbn [Uvarint_loop] in Hrun.
  - inversion Hrun. lia.
  - cbn [length].
    destruct (i =? MaxVarintLen64)%nat; [inversion Hrun; lia |].
    destruct (b <? 128).
    + destruct ((i =? MaxVarintLen64 - 1)%nat && (1 <? b))%bool;
        inversion Hrun; subst; [lia |].
      split; [apply lor_shl64_nonneg; exact Hx | lia].
    + apply IH in Hrun; [| apply lor_shl64_nonneg; exact Hx]. lia.
Qed.

Lemma Uvarint_result (r : list Z) (fl n : Z) :
  Uvarint r = (fl, n) ->
  0 <= fl /\
  ((n = 0 /\ fl = 0) \/ (fl = 0 /\ 0 < - n <= len r) \/ 0 < n <= len r).
Proof.
  intros Hrun. apply Uvarint_loop_result in Hrun; [| lia].
  change (Z.of_nat 0) with 0 in Hrun. lia.
Qed.

Lemma ReadUvarint_loop_nonneg (k : nat) :
  forall (i : nat) (r r' : io.Stream) (x s fl : Z) (err : option error),
    0 <= x ->
    ReadUvarint_loop (H := utils.NewByteReader) k i r x s = (r', (fl, err)) ->
    0 <= fl.
Proof.
  induction k as [| k IH]; intros i r r' x s fl err Hx Hrun;
    cbn [ReadUvarint_loop] in Hrun.
  - inversion Hrun. lia.
  - destruct (io.ReadByte r) as [r1 [b | e]]; [| inversion Hrun; lia].
    destruct (b <? 128).
    + destruct ((i =? MaxVarintLen64 - 1)%nat && (1 <? b))%bool;
        inversion Hrun; subst; [lia |].
      apply lor_shl64_nonneg; exact Hx.
    + eapply IH; [| exact Hrun]. apply lor_shl64_nonneg; exact Hx.
Qed.

(** A buffer of continuation bytes alone, no longer than the maximum width,
    is reported as too small: value [0], count [0]. *)
Lemma Uvarint_loop_unterminated (buf : list Z) :
  forall (i : nat) (x s : Z),
    Forall (fun b => 128 <= b) buf ->
    (i + length buf <= MaxVarintLen64)%nat ->
    Uvarint_loop buf i x s = (0, 0).
Proof.
  unfold MaxVarintLen64.
  induction buf as [| b rest IH]; intros i x s Hall Hlen;
    cbn [Uvarint_loop]; [reflexivity |].
  cbn [length] in Hlen. inversion Hall as [| ? ? Hb Hrest]; subst.
  destruct (Nat.eqb_spec i MaxVarintLen64) as [E | _];
    [unfold MaxVarintLen64 in E; lia |].
  destruct (Z.ltb_spec b 128) as [Hc | _]; [lia |].
  apply IH; [exact Hrest | lia].
Qed.

(** ** Integer conversions inside the bounds *)

Lemma int64_small (z : Z) : is_int z -> int64 z = z.
Proof.
  unfold is_int, MaxInt, int64. intros Hz.
  rewrite Z.mod_small by lia. lia.
Qed.

Lemma uint64_small (z : Z) : is_uint64 z -> uint64 z = z.
Proof. unfold is_uint64, uint64. intros Hz. apply Z.mod_small. lia. Qed.

Lemma valid_codec_bounds (v : varintLengthFieldCodec) :
  valid_codec v ->
  0 < maxFrameLength v <= MaxInt /\
  uint64 (maxFrameLength v) = maxFrameLength v.
Proof.
  intros (m & Hm & Hv). unfold VarintLengthFieldCodec in Hv.
  destruct (Z.leb_spec m 0) as [| Hpos]; [discriminate |].
  inversion Hv; subst; cbn [maxFrameLength].
  unfold is_int, MaxInt in *.
  split; [lia |]. apply uint64_small. unfold is_uint64. lia.
Qed.

(** ** The handlers, branch by branch *)

Lemma HandleRead_bytes (v : varintLengthFieldCodec) (r : list Z)
    (fired : list View) :
  HandleRead v (MsgBytes r) fired =
  let '(fl, n) := Uvarint r in
  if uint64 (maxFrameLength v) <? fl
  then (fired, Panic (FrameTooLarge fl (maxFrameLength v)))
  else if int64 fl =? int64 (len r - n)
  then match slice_from r n with
       | Ok tail => (fired ++ [ViewBytes (bytes.NewReader tail)], Ok tt)
       | Panic e => (fired, Panic e)
       end
  else (fired, Panic IncompletePacket).
Proof.
  unfold HandleRead. destruct (Uvarint r) as [fl n].
  unfold bind, utils.AssertIf, panic, ret, lift, fire.
  destruct (uint64 (maxFrameLength v) <? fl); [reflexivity |].
  destruct (int64 fl =? int64 (len r - n)); [| reflexivity].
  destruct (slice_from r n); reflexivity.
Qed.

Lemma HandleRead_stream (v : varintLengthFieldCodec) (r : io.Stream)
    (fired : list View) :
  HandleRead v (MsgReader r) fired =
  let '(r', (fl, err)) := ReadUvarint (H := utils.NewByteReader) r in
  match err with
  | Some e => (fired, Panic e)
  | None =>
      if uint64 (maxFrameLength v) <? fl
      then (fired, Panic (FrameTooLarge fl (maxFrameLength v)))
      else (fired ++ [ViewLimited (io.LimitReader r' (int64 fl))], Ok tt)
  end.
Proof.
  unfold HandleRead.
  destruct (ReadUvarint r) as [r' [fl [e |]]];
    unfold bind, utils.Assert, utils.AssertIf, panic, ret, fire;
    [reflexivity |].
  destruct (uint64 (maxFrameLength v) <? fl); reflexivity.
Qed.

(** Once the payload is resolved, [HandleWrite] checks its length and emits
    the two segments. *)
Lemma HandleWrite_bytes (v : varintLengthFieldCodec) (r : list Z)
    (fired : list (list (list Z))) :
  HandleWrite v (MsgBytes r) fired =
  if maxFrameLength v <? len r
  then (fired, Panic (FrameTooLarge (len r) (maxFrameLength v)))
  else match checked (PutUvarint (repeat 0 MaxVarintLen64)
                        (uint64 (len r))) with
       | Ok put =>
           match slice_to (fst put) (Z.of_nat (snd put)) with
           | Ok header => (fired ++ [[header; r]], Ok tt)
           | Panic e => (fired, Panic e)
           end
       | Panic e => (fired, Panic e)
       end.
Proof.
  unfold HandleWrite, bind, utils.AssertIf, panic, ret, lift, fire.
  destruct (maxFrameLength v <? len r); [reflexivity |].
  destruct (checked _) as [put | e]; [| reflexivity].
  destruct (slice_to _ _); reflexivity.
Qed.

Lemma HandleWrite_stream (v : varintLengthFieldCodec) (r : io.Stream)
    (fired : list (list (list Z))) :
  HandleWrite v (MsgReader r) fired =
  if is_EOF (io.closing r)
  then HandleWrite v (MsgBytes (io.pending r)) fired
  else (fired, Panic (io.closing r)).
Proof.
  unfold HandleWrite, bind, utils.AssertBytes, utils.Assert, utils.AssertIf,
    bind, panic, ret, lift, fire, io.ReadAll.
  cbn [fst snd].
  destruct (is_EOF (io.closing r)); reflexivity.
Qed.

(** The header of a payload that fits: [PutUvarint] fills the first bytes of
    the ten-byte array with the varint of the length. *)
Lemma header_of_length (z : Z) :
  0 <= z <= MaxInt ->
  exists put,
    checked (PutUvarint (repeat 0 MaxVarintLen64) (uint64 z)) = Ok put /\
    slice_to (fst put) (Z.of_nat (snd put)) = Ok (varint z).
Proof.
  intros Hz.
  assert (Hu : is_uint64 z) by (unfold is_uint64, MaxInt in *; lia).
  rewrite uint64_small by exact Hu.
  destruct (PutUvarint_varint z Hu) as (buf' & Hput & Hlen & Htake).
  exists (buf', length (varint z)). rewrite Hput. split; [reflexivity |].
  cbn [fst snd]. unfold slice_to, len.
  pose proof (varint_length_uint64 z Hu) as Hn.
  rewrite Hlen.
  destruct (Z.leb_spec 0 (Z.of_nat (length (varint z)))); [| lia].
  destruct (Z.leb_spec (Z.of_nat (length (varint z)))
              (Z.of_nat MaxVarintLen64)); [| apply Nat2Z.inj_le in Hn; lia].
  cbn [andb]. rewrite Nat2Z.id, Htake. reflexivity.
Qed.

Lemma HandleWrite_fits (v : varintLengthFieldCodec) (r : list Z)
    (fired : list (list (list Z))) :
  valid_codec v -> len r <= maxFrameLength v ->
  HandleWrite v (MsgBytes r) fired = (fired ++ [[varint (len r); r]], Ok tt).
Proof.
  intros Hv Hfit. destruct (valid_codec_bounds v Hv) as [Hm _].
  rewrite HandleWrite_bytes.
  destruct (Z.ltb_spec (maxFrameLength v) (len r)); [lia |].
  destruct (header_of_length (len r)) as (put & -> & ->);
    [unfold len in *; lia | reflexivity].
Qed.

Lemma HandleWrite_too_large (v : varintLengthFieldCodec) (r : list Z)
    (fired : list (list (list Z))) :
  maxFrameLength v < len r ->
  HandleWrite v (MsgBytes r) fired =
  (fired, Panic (FrameTooLarge (len r) (maxFrameLength v))).
Proof.
  intros Hbig. rewrite HandleWrite_bytes.
  destruct (Z.ltb_spec (maxFrameLength v) (len r)); [reflexivity | lia].
Qed.

Lemma HandleWrite_bytes_success (v : varintLengthFieldCodec) (r : list Z)
    (fired fired' : list (list (list Z))) :
  valid_codec v ->
  HandleWrite v (MsgBytes r) fired = (fired', Ok tt) ->
  len r <= maxFrameLength v /\ fired' = fired ++ [[varint (len r); r]].
Proof.
  intros Hv Hrun.
  destruct (Z.lt_ge_cases (maxFrameLength v) (len r)) as [Hbig | Hfit].
  - rewrite HandleWrite_too_large in Hrun by exact Hbig. discriminate Hrun.
  - rewrite HandleWrite_fits in Hrun by (try exact Hv; lia).
    inversion Hrun. split; [lia | reflexivity].
Qed.

Lemma HandleRead_frame (v : varintLengthFieldCodec) (P : list Z)
    (fired : list View) :
  valid_codec v -> len P <= maxFrameLength v ->
  HandleRead v (MsgBytes (varint (len P) ++ P)) fired =
  (fired ++ [ViewBytes (bytes.NewReader P)], Ok tt).
Proof.
  intros Hv Hfit. destruct (valid_codec_bounds v Hv) as [Hm Hu].
  assert (HP : 0 <= len P <= MaxInt) by (unfold len in *; lia).
  rewrite HandleRead_bytes, Hu.
  rewrite Uvarint_varint by (unfold is_uint64, MaxInt in *; lia).
  destruct (Z.ltb_spec (maxFrameLength v) (len P)); [lia |].
  replace (len (varint (len P) ++ P) - len (varint (len P))) with (len P)
    by (unfold len; rewrite length_app; lia).
  rewrite Z.eqb_refl.
  unfold slice_from.
  destruct (Z.leb_spec 0 (len (varint (len P)))); [| unfold len in *; lia].
  destruct (Z.leb_spec (len (varint (len P))) (len (varint (len P) ++ P)));
    [| unfold len in *; rewrite length_app in *; lia].
  cbn [andb]. unfold len at 1. rewrite Nat2Z.id, drop_app_length.
  reflexivity.
Qed.

Lemma HandleRead_stream_frame (v : varintLengthFieldCodec) (z : Z)
    (rest : list Z) (c : error) (fired : list View) :
  valid_codec v -> 0 <= z <= maxFrameLength v ->
  HandleRead v (MsgReader (io.mkStream (varint z ++ rest) c)) fired =
  (fired ++ [ViewLimited (io.LimitReader (io.mkStream rest c) z)], Ok tt).
Proof.
  intros Hv Hz. destruct (valid_codec_bounds v Hv) as [Hm Hu].
  rewrite HandleRead_stream, Hu.
  rewrite ReadUvarint_varint by (unfold is_uint64, MaxInt in *; lia).
  destruct (Z.ltb_spec (maxFrameLength v) z); [lia |].
  rewrite int64_small by (unfold is_int, MaxInt in *; lia).
  reflexivity.
Qed.

Lemma high_bit (b : Z) :
  0 <= b < 256 -> Z.testbit b 7 = (128 <=? b).
Proof.
  intros Hb. pose proof (Z.testbit_spec' b 7 ltac:(lia)) as Hspec.
  change (2 ^ 7) with 128 in Hspec.
  destruct (Z.leb_spec 128 b); destruct (Z.testbit b 7); cbn [Z.b2z] in Hspec;
    try reflexivity; exfalso; Z.div_mod_to_equations; lia.
Qed.

(** * The claims *)

(** C2. For every unsigned 64-bit value [V], [PutUvarint] into the ten-byte
    array succeeds and returns a count [n <= 10]; the [n] bytes it wrote are
    the encoding, [Uvarint] of them is [(V, n)], and every byte of the
    encoding has its high bit set except the last, which has it clear. *)
Theorem C2_varint_roundtrip (V : Z) :
  is_uint64 V ->
  exists (buf' : list Z) (n : nat),
    PutUvarint (repeat 0 MaxVarintLen64) V = Some (buf', n) /\
    (n <= MaxVarintLen64)%nat /\
    length (take n buf') = n /\
    Uvarint (take n buf') = (V, Z.of_nat n) /\
    exists (front : list Z) (final : Z),
      take n buf' = front ++ [final] /\
      Forall (fun b => is_byte b /\ Z.testbit b 7 = true) front /\
      is_byte final /\ Z.testbit final 7 = false.
Proof.
  intros HV.
  destruct (PutUvarint_varint V HV) as (buf' & Hput & Hlen & Htake).
  exists buf', (length (varint V)).
  rewrite Htake. split; [exact Hput |].
  split; [apply varint_length_uint64; exact HV |].
  split; [reflexivity |]. split.
  - pose proof (Uvarint_varint V [] HV) as Hdec.
    rewrite app_nil_r in Hdec. exact Hdec.
  - destruct (varint_shape V) as (front & final & Hshape & Hfront & Hfinal);
      [destruct HV; lia |].
    exists front, final. split; [exact Hshape |]. split.
    + eapply Forall_impl; [exact Hfront |]. cbv beta. intros b Hb.
      unfold is_byte. split; [lia |].
      rewrite high_bit by lia. apply Z.leb_le. lia.
    + unfold is_byte. split; [lia |].
      rewrite high_bit by lia. apply Z.leb_gt. lia.
Qed.

Lemma C2_varint_roundtrip_witness :
  is_uint64 300 /\
  exists (buf' : list Z) (n : nat),
    PutUvarint (repeat 0 MaxVarintLen64) 300 = Some (buf', n) /\
    (n <= MaxVarintLen64)%nat /\
    length (take n buf') = n /\
    Uvarint (take n buf') = (300, Z.of_nat n) /\
    exists (front : list Z) (final : Z),
      take n buf' = front ++ [final] /\
      Forall (fun b => is_byte b /\ Z.testbit b 7 = true) front /\
      is_byte final /\ Z.testbit final 7 = false.
Proof.
  assert (H : is_uint64 300) by (unfold is_uint64; lia).
  split; [exact H | apply (C2_varint_roundtrip 300 H)].
Defined.

(** C1. For every payload [P] with [0 <= len(P) <= maxFrameLength],
    [HandleWrite] hands on the header segment and [P]; [HandleRead] of the
    buffer that holds the header followed by [P] succeeds and hands on a
    reader whose contents are [P]. *)
Theorem C1_frame_roundtrip (v : varintLengthFieldCodec) (P : list Z)
    (fired_w : list (list (list Z))) (fired_r : list View) :
  valid_codec v -> 0 <= len P <= maxFrameLength v ->
  exists (header : list Z) (view : bytes.Reader),
    HandleWrite v (MsgBytes P) fired_w = (fired_w ++ [[header; P]], Ok tt) /\
    HandleRead v (MsgBytes (header ++ P)) fired_r =
      (fired_r ++ [ViewBytes view], Ok tt) /\
    bytes.unread view = P.
Proof.
  intros Hv [_ Hfit].
  exists (varint (len P)), (bytes.NewReader P).
  split; [apply HandleWrite_fits; assumption |].
  split; [apply HandleRead_frame; assumption | reflexivity].
Qed.

Lemma valid_codec_of (m : Z) :
  0 < m <= MaxInt -> valid_codec (mkCodec m).
Proof.
  intros Hm. exists m. unfold is_int, VarintLengthFieldCodec, MaxInt in *.
  split; [lia |]. destruct (Z.leb_spec m 0); [lia | reflexivity].
Qed.

Lemma C1_frame_roundtrip_witness :
  valid_codec (mkCodec 1024) /\
  0 <= len [104; 101; 108; 108; 111] <= maxFrameLength (mkCodec 1024) /\
  exists (header : list Z) (view : bytes.Reader),
    HandleWrite (mkCodec 1024) (MsgBytes [104; 101; 108; 108; 111]) [] =
      ([] ++ [[header; [104; 101; 108; 108; 111]]], Ok tt) /\
    HandleRead (mkCodec 1024)
      (MsgBytes (header ++ [104; 101; 108; 108; 111])) [] =
      ([] ++ [ViewBytes view], Ok tt) /\
    bytes.unread view = [104; 101; 108; 108; 111].
Proof.
  assert (Hv : valid_codec (mkCodec 1024))
    by (apply valid_codec_of; unfold MaxInt; lia).
  assert (Hlen : 0 <= len [104; 101; 108; 108; 111]
                 <= maxFrameLength (mkCodec 1024))
    by (unfold len; simpl; lia).
  split; [exact Hv |]. split; [exact Hlen |].
  apply (C1_frame_roundtrip (mkCodec 1024) [104; 101; 108; 108; 111] [] []
           Hv Hlen).
Defined.

(** C3. With [m = maxFrameLength]: a payload of exactly [m] bytes is encoded,
    and the frame made of the header and the payload is decoded, from a
    buffer and from a stream; a payload of more than [m] bytes ([m + 1] in
    particular), given as bytes or as a stream to drain, makes [HandleWrite]
    panic with [FrameTooLarge] with nothing handed on, no header either; a
    decoded length prefix above [m] makes [HandleRead] panic with
    [FrameTooLarge], on a buffer and on a stream, with nothing handed on, and
    so does the prefix that [PutUvarint] writes for [m + 1]. *)
Theorem C3_boundary (v : varintLengthFieldCodec) :
  valid_codec v ->
  let m := maxFrameLength v in
  (forall P fired_w fired_r fired_s rest c, len P = m ->
     exists header,
       HandleWrite v (MsgBytes P) fired_w =
         (fired_w ++ [[header; P]], Ok tt) /\
       HandleRead v (MsgBytes (header ++ P)) fired_r =
         (fired_r ++ [ViewBytes (bytes.NewReader P)], Ok tt) /\
       HandleRead v (MsgReader (io.mkStream (header ++ P ++ rest) c)) fired_s =
         (fired_s ++
          [ViewLimited (io.LimitReader (io.mkStream (P ++ rest) c) m)],
          Ok tt)) /\
  (forall P fired, m < len P ->
     HandleWrite v (MsgBytes P) fired =
       (fired, Panic (FrameTooLarge (len P) m))) /\
  (forall P fired, m < len P ->
     HandleWrite v (MsgReader (io.mkStream P EOF)) fired =
       (fired, Panic (FrameTooLarge (len P) m))) /\
  (forall r fired, m < fst (Uvarint r) ->
     HandleRead v (MsgBytes r) fired =
       (fired, Panic (FrameTooLarge (fst (Uvarint r)) m))) /\
  (forall s s' fl fired,
     ReadUvarint (H := utils.NewByteReader) s = (s', (fl, None)) -> m < fl ->
     HandleRead v (MsgReader s) fired =
       (fired, Panic (FrameTooLarge fl m))) /\
  (exists buf' n,
     PutUvarint (repeat 0 MaxVarintLen64) (m + 1) = Some (buf', n) /\
     (forall P fired,
        HandleRead v (MsgBytes (take n buf' ++ P)) fired =
          (fired, Panic (FrameTooLarge (m + 1) m))) /\
     (forall rest c fired,
        HandleRead v (MsgReader (io.mkStream (take n buf' ++ rest) c)) fired =
          (fired, Panic (FrameTooLarge (m + 1) m)))).
Proof.
  intros Hv m. destruct (valid_codec_bounds v Hv) as [Hm Hu]. fold m in Hm, Hu.
  assert (Hbytes : forall r fired, m < fst (Uvarint r) ->
            HandleRead v (MsgBytes r) fired =
              (fired, Panic (FrameTooLarge (fst (Uvarint r)) m))).
  { intros r fired Hbig. rewrite HandleRead_bytes. fold m. rewrite Hu.
    destruct (Uvarint r) as [fl n]. cbn [fst] in *.
    destruct (Z.ltb_spec m fl); [reflexivity | lia]. }
  assert (Hstream : forall s s' fl fired,
            ReadUvarint (H := utils.NewByteReader) s = (s', (fl, None)) ->
            m < fl ->
            HandleRead v (MsgReader s) fired =
              (fired, Panic (FrameTooLarge fl m))).
  { intros s s' fl fired Hrun Hbig. rewrite HandleRead_stream, Hrun.
    fold m. rewrite Hu.
    destruct (Z.ltb_spec m fl); [reflexivity | lia]. }
  assert (Hnext : is_uint64 (m + 1)) by (unfold is_uint64, MaxInt in *; lia).
  split; [| split; [| split; [| split; [| split]]]].
  - intros P fired_w fired_r fired_s rest c HP.
    exists (varint (len P)).
    split; [apply HandleWrite_fits; [exact Hv | fold m; lia] |].
    split; [apply HandleRead_frame; [exact Hv | fold m; lia] |].
    rewrite <- HP.
    apply HandleRead_stream_frame; [exact Hv |].
    fold m. unfold len in *. lia.
  - intros P fired Hbig. apply HandleWrite_too_large. exact Hbig.
  - intros P fired Hbig. rewrite HandleWrite_stream. cbn [io.closing is_EOF].
    apply HandleWrite_too_large. exact Hbig.
  - exact Hbytes.
  - exact Hstream.
  - destruct (PutUvarint_varint (m + 1) Hnext) as (buf' & Hput & _ & Htake).
    exists buf', (length (varint (m + 1))).
    split; [exact Hput |]. rewrite Htake. split.
    + intros P fired.
      pose proof (Hbytes (varint (m + 1) ++ P) fired) as Hfail.
      rewrite Uvarint_varint in Hfail by exact Hnext.
      apply Hfail. cbn [fst]. lia.
    + intros rest c fired.
      apply (Hstream _ (io.mkStream rest c)); [| lia].
      apply ReadUvarint_varint. exact Hnext.
Qed.

Lemma C3_boundary_witness :
  valid_codec (mkCodec 100) /\
  (exists header,
     HandleWrite (mkCodec 100) (MsgBytes (repeat 7 100)) [] =
       ([] ++ [[header; repeat 7 100]], Ok tt) /\
     HandleRead (mkCodec 100) (MsgBytes (header ++ repeat 7 100)) [] =
       ([] ++ [ViewBytes (bytes.NewReader (repeat 7 100))], Ok tt)) /\
  HandleWrite (mkCodec 100) (MsgBytes (repeat 7 101)) [] =
    ([], Panic (FrameTooLarge 101 100)) /\
  HandleWrite (mkCodec 100) (MsgBytes (repeat 7 300)) [] =
    ([], Panic (FrameTooLarge 300 100)) /\
  HandleRead (mkCodec 100) (MsgBytes (101 :: repeat 7 101)) [] =
    ([], Panic (FrameTooLarge 101 100)).
Proof.
  assert (Hv : valid_codec (mkCodec 100))
    by (apply valid_codec_of; unfold MaxInt; lia).
  destruct (C3_boundary (mkCodec 100) Hv)
    as (Hfit & Hbig & _ & Hdec & _ & _).
  split; [exact Hv |].
  split.
  { destruct (Hfit (repeat 7 100) [] [] [] [] EOF eq_refl)
      as (header & Hw & Hr & _).
    exists header. split; [exact Hw | exact Hr]. }
  split; [apply (Hbig (repeat 7 101) []); reflexivity |].
  split; [apply (Hbig (repeat 7 300) []); reflexivity |].
  apply (Hdec (101 :: repeat 7 101) []). vm_compute. reflexivity.
Defined.

(** C4, as the spec has it, fails: the buffer of ten bytes [0x80] is
    rejected, but with [IncompletePacket], which is not a malformed-varint
    error. *)
Lemma C4_counterexample :
  HandleRead (mkCodec 1024) (MsgBytes (repeat 128 10)) [] =
    ([], Panic IncompletePacket) /\
  ~ (exists e, MalformedVarint e /\
               snd (HandleRead (mkCodec 1024) (MsgBytes (repeat 128 10)) []) =
               Panic e).
Proof.
  split; [reflexivity |].
  intros (e & [He | [He | He]] & Hrun); subst e; discriminate Hrun.
Qed.

(** C4, amended.  Decoding a buffer of exactly ten bytes, each with the
    continuation bit set, fails with [IncompletePacket] and hands nothing
    on: [Uvarint] finds no terminating byte and reports value [0] with
    count [0], and [0] is not the length of the buffer. *)
Theorem C4_unterminated_prefix (v : varintLengthFieldCodec) (r : list Z)
    (fired : list View) :
  length r = 10%nat ->
  Forall (fun b => is_byte b /\ Z.testbit b 7 = true) r ->
  Uvarint r = (0, 0) /\
  HandleRead v (MsgBytes r) fired = (fired, Panic IncompletePacket).
Proof.
  intros Hlen Hall.
  assert (Hdec : Uvarint r = (0, 0)).
  { apply Uvarint_loop_unterminated.
    - eapply Forall_impl; [exact Hall |]. cbv beta. intros b [Hb Hbit].
      rewrite high_bit in Hbit by exact Hb. apply Z.leb_le. exact Hbit.
    - rewrite Hlen. unfold MaxVarintLen64. lia. }
  split; [exact Hdec |].
  rewrite HandleRead_bytes, Hdec.
  destruct (Z.ltb_spec (uint64 (maxFrameLength v)) 0) as [Hneg | _].
  { unfold uint64 in Hneg.
    pose proof (Z.mod_pos_bound (maxFrameLength v) (2 ^ 64) ltac:(lia)). lia. }
  unfold len. rewrite Hlen. reflexivity.
Qed.

Lemma C4_unterminated_prefix_witness :
  length (repeat 255 10) = 10%nat /\
  Forall (fun b => is_byte b /\ Z.testbit b 7 = true) (repeat 255 10) /\
  Uvarint (repeat 255 10) = (0, 0) /\
  HandleRead (mkCodec 1024) (MsgBytes (repeat 255 10)) [] =
    ([], Panic IncompletePacket).
Proof.
  assert (Hlen : length (repeat 255 10) = 10%nat) by reflexivity.
  assert (Hall : Forall (fun b => is_byte b /\ Z.testbit b 7 = true)
                   (repeat 255 10)).
  { cbn [repeat].
    repeat (constructor; [split; [unfold is_byte; lia | reflexivity] |]).
    constructor. }
  split; [exact Hlen |]. split; [exact Hall |].
  apply (C4_unterminated_prefix (mkCodec 1024) (repeat 255 10) [] Hlen Hall).
Defined.

(** C6. A message that is neither an [io.Reader] nor a [[]byte] makes both
    [HandleRead] and [HandleWrite] panic with [UnsupportedMessageType]; in
    both, nothing is handed to the next handler. *)
Theorem C6_unsupported_message (v : varintLengthFieldCodec) (T : string)
    (fired_r : list View) (fired_w : list (list (list Z))) :
  HandleRead v (MsgOther T) fired_r =
    (fired_r, Panic (UnsupportedMessageType T)) /\
  HandleWrite v (MsgOther T) fired_w =
    (fired_w, Panic (UnsupportedMessageType T)).
Proof. split; reflexivity. Qed.

(** C9. Decoding the empty buffer does not fail: [Uvarint] reports value
    [0] with count [0], both checks pass, and the reader over the empty
    tail is handed on. *)
Theorem C9_empty_buffer (v : varintLengthFieldCodec) (fired : list View) :
  Uvarint [] = (0, 0) /\
  HandleRead v (MsgBytes []) fired =
    (fired ++ [ViewBytes (bytes.NewReader [])], Ok tt) /\
  bytes.Len (bytes.NewReader []) = 0.
Proof.
  split; [reflexivity |]. split; [| reflexivity].
  rewrite HandleRead_bytes. cbn [Uvarint Uvarint_loop].
  destruct (Z.ltb_spec (uint64 (maxFrameLength v)) 0) as [Hneg | _].
  { unfold uint64 in Hneg.
    pose proof (Z.mod_pos_bound (maxFrameLength v) (2 ^ 64) ltac:(lia)). lia. }
  reflexivity.
Qed.

Lemma uint64_not_below_zero (z : Z) : (uint64 z <? 0) = false.
Proof.
  apply Z.ltb_ge. unfold uint64. apply Z.mod_pos_bound. lia.
Qed.

Lemma slice_from_in_range (r : list Z) (n : Z) :
  0 <= n <= len r -> slice_from r n = Ok (drop (Z.to_nat n) r).
Proof.
  intros Hn. unfold slice_from.
  destruct (Z.leb_spec 0 n); [| lia].
  destruct (Z.leb_spec n (len r)); [reflexivity | lia].
Qed.

Lemma len_drop (r : list Z) (n : Z) :
  0 <= n <= len r -> len (drop (Z.to_nat n) r) = len r - n.
Proof. unfold len. intros Hn. rewrite length_drop. lia. Qed.

(** C5. For a buffer [r] whose prefix [Uvarint] decodes to [frameLength]
    within the bound, [HandleRead] panics with [IncompletePacket] exactly
    when [frameLength] differs from the number of bytes of [r] after the
    prefix, be they too few or too many; when the two agree it succeeds. *)
Theorem C5_incomplete_packet (v : varintLengthFieldCodec) (r : list Z)
    (frameLength n : Z) (fired : list View) :
  valid_codec v -> len r <= MaxInt ->
  Uvarint r = (frameLength, n) -> 0 <= n ->
  frameLength <= maxFrameLength v ->
  let remaining := len (drop (Z.to_nat n) r) in
  (HandleRead v (MsgBytes r) fired = (fired, Panic IncompletePacket) <->
   frameLength <> remaining) /\
  (frameLength = remaining ->
   HandleRead v (MsgBytes r) fired =
     (fired ++ [ViewBytes (bytes.NewReader (drop (Z.to_nat n) r))], Ok tt)).
Proof.
  intros Hv Hr Hdec Hn Hfit remaining.
  destruct (valid_codec_bounds v Hv) as [Hm Hu].
  destruct (Uvarint_result r frameLength n Hdec) as [Hfl Hcases].
  assert (Hlen0 : 0 <= len r) by (unfold len; lia).
  assert (Hrange : 0 <= n <= len r) by lia.
  assert (Hrem : remaining = len r - n) by (apply len_drop; exact Hrange).
  rewrite HandleRead_bytes, Hdec, Hu.
  destruct (Z.ltb_spec (maxFrameLength v) frameLength); [lia |].
  rewrite !int64_small by (unfold is_int, MaxInt in *; lia).
  rewrite slice_from_in_range by exact Hrange.
  rewrite Hrem.
  destruct (Z.eqb_spec frameLength (len r - n)) as [Heq | Hne].
  - split; [| reflexivity]. split; [discriminate | contradiction].
  - split; [| contradiction]. split; [intros _; exact Hne | reflexivity].
Qed.

Lemma C5_incomplete_packet_witness :
  valid_codec (mkCodec 1024) /\
  len [10; 1; 2; 3; 4; 5; 6; 7; 8] <= MaxInt /\
  Uvarint [10; 1; 2; 3; 4; 5; 6; 7; 8] = (10, 1) /\
  0 <= 1 /\
  10 <= maxFrameLength (mkCodec 1024) /\
  (HandleRead (mkCodec 1024) (MsgBytes [10; 1; 2; 3; 4; 5; 6; 7; 8]) [] =
     ([], Panic IncompletePacket) <->
   10 <> len (drop (Z.to_nat 1) [10; 1; 2; 3; 4; 5; 6; 7; 8])).
Proof.
  assert (Hv : valid_codec (mkCodec 1024))
    by (apply valid_codec_of; unfold MaxInt; lia).
  assert (Hr : len [10; 1; 2; 3; 4; 5; 6; 7; 8] <= MaxInt)
    by (unfold len, MaxInt; simpl; lia).
  assert (Hdec : Uvarint [10; 1; 2; 3; 4; 5; 6; 7; 8] = (10, 1))
    by reflexivity.
  assert (Hn : 0 <= 1) by lia.
  assert (Hfit : 10 <= maxFrameLength (mkCodec 1024)) by (simpl; lia).
  repeat (split; [assumption |]).
  apply (C5_incomplete_packet (mkCodec 1024) [10; 1; 2; 3; 4; 5; 6; 7; 8]
           10 1 [] Hv Hr Hdec Hn Hfit).
Defined.

(** C8. For every successful encode the one message handed on is the pair
    of segments header and payload, in this order; [Uvarint] of the header
    is the length of the payload, reading the whole header; for a byte
    slice the payload is the slice itself and for a stream it is the bytes
    drained from it. *)
Theorem C8_encode_segments (v : varintLengthFieldCodec) (message : Message)
    (fired fired' : list (list (list Z))) :
  valid_codec v ->
  HandleWrite v message fired = (fired', Ok tt) ->
  exists header payload : list Z,
    fired' = fired ++ [[header; payload]] /\
    Uvarint header = (len payload, len header) /\
    match message with
    | MsgBytes r => payload = r
    | MsgReader s => payload = io.pending s
    | MsgOther _ => False
    end.
Proof.
  intros Hv Hrun. destruct (valid_codec_bounds v Hv) as [Hm _].
  assert (Hbytes : forall r,
            HandleWrite v (MsgBytes r) fired = (fired', Ok tt) ->
            exists header payload : list Z,
              fired' = fired ++ [[header; payload]] /\
              Uvarint header = (len payload, len header) /\ payload = r).
  { intros r Hr.
    destruct (Z.lt_ge_cases (maxFrameLength v) (len r)) as [Hbig | Hfit].
    - rewrite HandleWrite_too_large in Hr by exact Hbig. discriminate Hr.
    - rewrite HandleWrite_fits in Hr by (try exact Hv; lia).
      inversion Hr; subst fired'.
      exists (varint (len r)), r. split; [reflexivity |].
      split; [| reflexivity].
      pose proof (Uvarint_varint (len r) []) as Hdec.
      rewrite app_nil_r in Hdec. apply Hdec.
      unfold is_uint64, len, MaxInt in *. lia. }
  destruct message as [s | r | T].
  - rewrite HandleWrite_stream in Hrun.
    destruct (is_EOF (io.closing s)); [| discriminate Hrun].
    apply Hbytes. exact Hrun.
  - apply Hbytes. exact Hrun.
  - discriminate Hrun.
Qed.

Lemma C8_encode_segments_witness :
  valid_codec (mkCodec 1024) /\
  HandleWrite (mkCodec 1024) (MsgBytes [104; 101; 108; 108; 111]) [] =
    ([[[5]; [104; 101; 108; 108; 111]]], Ok tt) /\
  exists header payload : list Z,
    [[[5]; [104; 101; 108; 108; 111]]] = [] ++ [[header; payload]] /\
    Uvarint header = (len payload, len header) /\
    payload = [104; 101; 108; 108; 111].
Proof.
  assert (Hv : valid_codec (mkCodec 1024))
    by (apply valid_codec_of; unfold MaxInt; lia).
  assert (Hrun : HandleWrite (mkCodec 1024)
                   (MsgBytes [104; 101; 108; 108; 111]) [] =
                 ([[[5]; [104; 101; 108; 108; 111]]], Ok tt))
    by reflexivity.
  split; [exact Hv |]. split; [exact Hrun |].
  apply (C8_encode_segments (mkCodec 1024)
           (MsgBytes [104; 101; 108; 108; 111]) [] _ Hv Hrun).
Defined.

(** C10. On a buffer, when [Uvarint] reports a count [n <= 0], either the
    buffer is empty, [n = 0] and the decode succeeds, or [HandleRead] panics
    with [IncompletePacket], raised before the slice [r[n:]] is taken; in no
    case does [HandleRead] panic with a slice bound out of range. *)
Theorem C10_slice_in_bounds (v : varintLengthFieldCodec) (r : list Z)
    (frameLength n : Z) (fired : list View) :
  len r <= MaxInt ->
  Uvarint r = (frameLength, n) ->
  (n <= 0 ->
   (n = 0 /\ r = [] /\
    HandleRead v (MsgBytes r) fired =
      (fired ++ [ViewBytes (bytes.NewReader [])], Ok tt)) \/
   HandleRead v (MsgBytes r) fired = (fired, Panic IncompletePacket)) /\
  snd (HandleRead v (MsgBytes r) fired) <> Panic SliceBoundsOutOfRange.
Proof.
  intros Hr Hdec.
  destruct (Uvarint_result r frameLength n Hdec) as [Hfl Hcases].
  assert (Hlen0 : 0 <= len r) by (unfold len; lia).
  split.
  - intros Hn.
    assert (Hzero : frameLength = 0) by lia. subst frameLength.
    destruct r as [| b rest].
    + left. inversion Hdec; subst n.
      split; [reflexivity |]. split; [reflexivity |].
      rewrite HandleRead_bytes. cbn [Uvarint Uvarint_loop].
      rewrite uint64_not_below_zero. reflexivity.
    + right. rewrite HandleRead_bytes, Hdec, uint64_not_below_zero.
      assert (Hpos : 0 < len (b :: rest)) by (unfold len; simpl; lia).
      destruct (Z.eqb_spec (int64 0) (int64 (len (b :: rest) - n)))
        as [Heq | _]; [| reflexivity].
      exfalso. unfold int64, MaxInt in *. Z.div_mod_to_equations. lia.
  - rewrite HandleRead_bytes, Hdec.
    destruct (uint64 (maxFrameLength v) <? frameLength);
      [cbn [snd]; discriminate |].
    destruct (Z.eqb_spec (int64 frameLength) (int64 (len r - n)))
      as [Heq | _]; [| cbn [snd]; discriminate].
    assert (Hrange : 0 <= n <= len r).
    { destruct Hcases as [[-> ->] | [[-> Hneg] | Hpos]]; [lia | | lia].
      exfalso. unfold int64, MaxInt in *. Z.div_mod_to_equations. lia. }
    rewrite slice_from_in_range by exact Hrange. cbn [snd]. discriminate.
Qed.

Lemma C10_slice_in_bounds_witness :
  len (repeat 128 11) <= MaxInt /\
  Uvarint (repeat 128 11) = (0, -11) /\
  HandleRead (mkCodec 1024) (MsgBytes (repeat 128 11)) [] =
    ([], Panic IncompletePacket) /\
  snd (HandleRead (mkCodec 1024) (MsgBytes (repeat 128 11)) []) <>
    Panic SliceBoundsOutOfRange.
Proof.
  assert (Hr : len (repeat 128 11) <= MaxInt)
    by (unfold len, MaxInt; simpl; lia).
  assert (Hdec : Uvarint (repeat 128 11) = (0, -11)) by reflexivity.
  split; [exact Hr |]. split; [exact Hdec |].
  destruct (C10_slice_in_bounds (mkCodec 1024) (repeat 128 11) 0 (-11) []
              Hr Hdec) as [_ Hsafe].
  split; [reflexivity | exact Hsafe].
Defined.

(** ** Reading from the payload view *)

Lemma take_drop_length_take (p : list Z) (k : nat) :
  take (length (take k p)) p = take k p /\
  drop (length (take k p)) p = drop k p.
Proof.
  rewrite length_take.
  destruct (Nat.le_gt_cases k (length p)) as [Hle | Hgt].
  - rewrite Nat.min_l by exact Hle. split; reflexivity.
  - rewrite Nat.min_r by lia.
    rewrite !take_ge, !drop_ge by lia. split; reflexivity.
Qed.

(** One [Read] on a limited reader over a stream: the bytes come from the
    front of the stream, are no more than the bound, and are charged to it. *)
Lemma LimitedReader_Read_prefix (l l' : io.LimitedReader io.Stream)
    (k : nat) (bs : list Z) (err : option error) :
  0 <= io.N l ->
  io.Read l k = (l', (bs, err)) ->
  bs = take (length bs) (io.pending (io.R_ l)) /\
  io.pending (io.R_ l') = drop (length bs) (io.pending (io.R_ l)) /\
  io.closing (io.R_ l') = io.closing (io.R_ l) /\
  io.N l' = io.N l - len bs /\
  0 <= io.N l'.
Proof.
  intros HN Hread. unfold io.Read, io.LimitedReader_Reader in Hread.
  destruct (Z.leb_spec (io.N l) 0) as [Hz | Hpos].
  { inversion Hread; subst. unfold len. cbn. repeat split; lia. }
  set (k' := if io.N l <? Z.of_nat k then Z.to_nat (io.N l) else k) in Hread.
  assert (Hk' : Z.of_nat k' <= io.N l).
  { unfold k'. destruct (Z.ltb_spec (io.N l) (Z.of_nat k)); lia. }
  unfold io.Read, io.Stream_Reader in Hread.
  destruct k' as [| k'].
  { inversion Hread; subst. unfold len. cbn. repeat split; lia. }
  destruct (io.pending (io.R_ l)) as [| b p] eqn:Hp.
  { inversion Hread; subst. unfold len. cbn. rewrite Hp.
    repeat split; lia. }
  inversion Hread; subst. clear Hread.
  cbn [io.R_ io.N io.pending io.closing].
  change (b :: take k' p) with (take (S k') (b :: p)).
  change (drop k' p) with (drop (S k') (b :: p)).
  destruct (take_drop_length_take (b :: p) (S k')) as [Ht Hd].
  rewrite Ht, Hd.
  assert (Hlen : (length (take (S k') (b :: p)) <= S k')%nat)
    by (rewrite length_take; lia).
  unfold len. repeat split; try reflexivity; lia.
Qed.

(** Any sequence of [Read] calls on the view: what has been read is a prefix
    of the stream, never longer than the bound, and the stream keeps the
    rest. *)
Lemma LimitedReader_Reads_prefix (ks : list nat) :
  forall (l l' : io.LimitedReader io.Stream) (out : list Z),
    0 <= io.N l ->
    io.Reads l ks = (l', out) ->
    out = take (length out) (io.pending (io.R_ l)) /\
    io.pending (io.R_ l') = drop (length out) (io.pending (io.R_ l)) /\
    io.closing (io.R_ l') = io.closing (io.R_ l) /\
    io.N l' = io.N l - len out /\
    0 <= io.N l'.
Proof.
  induction ks as [| k ks IH]; intros l l' out HN Hreads;
    cbn [io.Reads] in Hreads.
  - inversion Hreads; subst. unfold len. cbn. repeat split; lia.
  - destruct (io.Read l k) as [l1 [bs err]] eqn:Hread.
    destruct (io.Reads l1 ks) as [l2 rest] eqn:Hrest.
    inversion Hreads; subst l2 out. clear Hreads.
    destruct (LimitedReader_Read_prefix l l1 k bs err HN Hread)
      as (Hbs & Hp1 & Hc1 & HN1 & HN1').
    destruct (IH l1 l' rest HN1' Hrest) as (Hr & Hp2 & Hc2 & HN2 & HN2').
    rewrite Hp1 in Hr, Hp2.
    rewrite length_app.
    split.
    { rewrite <- take_take_drop, <- Hbs, <- Hr. reflexivity. }
    split; [rewrite Hp2, drop_drop; reflexivity |].
    split; [congruence |].
    unfold len in *. rewrite length_app. lia.
Qed.

Lemma HandleRead_bytes_success (v : varintLengthFieldCodec) (r : list Z)
    (fl n : Z) (fired fired' : list View) :
  valid_codec v -> len r <= MaxInt -> Uvarint r = (fl, n) ->
  HandleRead v (MsgBytes r) fired = (fired', Ok tt) ->
  0 <= n <= len r /\ fl = len r - n /\
  fired' = fired ++ [ViewBytes (bytes.NewReader (drop (Z.to_nat n) r))].
Proof.
  intros Hv Hr Hdec Hrun. destruct (valid_codec_bounds v Hv) as [Hm Hu].
  destruct (Uvarint_result r fl n Hdec) as [Hfl Hcases].
  assert (Hlen0 : 0 <= len r) by (unfold len; lia).
  rewrite HandleRead_bytes, Hdec, Hu in Hrun.
  destruct (Z.ltb_spec (maxFrameLength v) fl); [discriminate Hrun |].
  destruct (Z.eqb_spec (int64 fl) (int64 (len r - n))) as [Heq | _];
    [| discriminate Hrun].
  rewrite (int64_small fl) in Heq by (unfold is_int, MaxInt in *; lia).
  assert (Hrange : 0 <= n <= len r).
  { destruct Hcases as [[-> ->] | [[-> Hneg] | Hpos]]; [lia | | lia].
    exfalso. unfold int64, MaxInt in *. Z.div_mod_to_equations. lia. }
  rewrite int64_small in Heq by (unfold is_int, MaxInt in *; lia).
  rewrite slice_from_in_range in Hrun by exact Hrange.
  inversion Hrun. auto.
Qed.

Lemma HandleRead_stream_success (v : varintLengthFieldCodec) (s : io.Stream)
    (fired fired' : list View) :
  valid_codec v ->
  HandleRead v (MsgReader s) fired = (fired', Ok tt) ->
  exists (s' : io.Stream) (fl : Z),
    ReadUvarint (H := utils.NewByteReader) s = (s', (fl, None)) /\
    0 <= fl <= maxFrameLength v /\
    fired' = fired ++ [ViewLimited (io.LimitReader s' fl)].
Proof.
  intros Hv Hrun. destruct (valid_codec_bounds v Hv) as [Hm Hu].
  rewrite HandleRead_stream, Hu in Hrun.
  destruct (ReadUvarint s) as [s' [fl [e |]]] eqn:Hdec; [discriminate Hrun |].
  assert (Hfl : 0 <= fl).
  { unfold ReadUvarint in Hdec.
    eapply ReadUvarint_loop_nonneg; [| exact Hdec]. lia. }
  destruct (Z.ltb_spec (maxFrameLength v) fl); [discriminate Hrun |].
  rewrite int64_small in Hrun by (unfold is_int, MaxInt in *; lia).
  inversion Hrun. exists s', fl. auto.
Qed.

(** C7. For every successful decode the byte length of the view handed on
    is the decoded length prefix: a buffer gives the reader over the bytes
    after the prefix, which are that many, and a stream gives the limited
    reader with that bound, from which no sequence of reads obtains more than
    that many bytes, all of them taken in order from the stream.  On a stream
    that holds an encoded frame (the header and payload of [HandleWrite])
    followed by the bytes [F2] of the next one, decoding consumes the prefix
    alone, whatever is then read from the view is a part of the first
    payload, [F2] stays in the stream, and one read of the payload's length
    returns the payload and leaves exactly [F2]. *)
Theorem C7_payload_view (v : varintLengthFieldCodec) :
  valid_codec v ->
  (forall r fired fired',
     len r <= MaxInt ->
     HandleRead v (MsgBytes r) fired = (fired', Ok tt) ->
     exists view,
       fired' = fired ++ [view] /\
       view = ViewBytes
                (bytes.NewReader (drop (Z.to_nat (snd (Uvarint r))) r)) /\
       view_len view = fst (Uvarint r)) /\
  (forall s fired fired',
     HandleRead v (MsgReader s) fired = (fired', Ok tt) ->
     exists s' fl,
       ReadUvarint (H := utils.NewByteReader) s = (s', (fl, None)) /\
       fired' = fired ++ [ViewLimited (io.LimitReader s' fl)] /\
       view_len (ViewLimited (io.LimitReader s' fl)) = fl /\
       forall ks l' out,
         io.Reads (io.LimitReader s' fl) ks = (l', out) ->
         len out <= fl /\
         out = take (length out) (io.pending s') /\
         io.pending (io.R_ l') = drop (length out) (io.pending s')) /\
  (forall P1 header F2 c fired,
     HandleWrite v (MsgBytes P1) [] = ([[header; P1]], Ok tt) ->
     let view := io.LimitReader (io.mkStream (P1 ++ F2) c) (len P1) in
     HandleRead v (MsgReader (io.mkStream (header ++ P1 ++ F2) c)) fired =
       (fired ++ [ViewLimited view], Ok tt) /\
     (forall ks l' out,
        io.Reads view ks = (l', out) ->
        exists unread,
          P1 = out ++ unread /\ io.pending (io.R_ l') = unread ++ F2) /\
     io.Reads view [length P1] =
       (io.LimitReader (io.mkStream F2 c) 0, P1)).
Proof.
  intros Hv. destruct (valid_codec_bounds v Hv) as [Hm Hu].
  split; [| split].
  - intros r fired fired' Hr Hrun.
    destruct (Uvarint r) as [fl n] eqn:Hdec. cbn [fst snd].
    destruct (HandleRead_bytes_success v r fl n fired fired' Hv Hr Hdec Hrun)
      as (Hrange & Hfl & Hfired).
    eexists. split; [exact Hfired |]. split; [reflexivity |].
    cbn [view_len]. unfold bytes.Len, bytes.NewReader.
    cbn [bytes.s bytes.i]. rewrite len_drop by exact Hrange.
    destruct (Z.leb_spec (len r - n) 0); lia.
  - intros s fired fired' Hrun.
    destruct (HandleRead_stream_success v s fired fired' Hv Hrun)
      as (s' & fl & Hdec & Hfl & Hfired).
    exists s', fl. split; [exact Hdec |]. split; [exact Hfired |].
    split; [reflexivity |].
    intros ks l' out Hreads.
    assert (Hbound : 0 <= io.N (io.LimitReader s' fl)) by (cbn; lia).
    destruct (LimitedReader_Reads_prefix ks (io.LimitReader s' fl) l' out
                Hbound Hreads)
      as (Hout & Hp & _ & HN & HN').
    cbn [io.N io.R_ io.LimitReader] in *.
    split; [lia |]. split; assumption.
  - intros P1 header F2 c fired Henc view.
    destruct (HandleWrite_bytes_success v P1 [] _ Hv Henc) as [Hfit Hhdr].
    assert (Hheader : header = varint (len P1))
      by (inversion Hhdr; reflexivity).
    subst header. clear Henc Hhdr.
    assert (HP : 0 <= len P1) by (unfold len; lia).
    split; [apply HandleRead_stream_frame; [exact Hv | lia] |].
    split.
    + intros ks l' out Hreads.
      assert (Hbound : 0 <= io.N view) by (cbn; lia).
      destruct (LimitedReader_Reads_prefix ks view l' out Hbound Hreads)
        as (Hout & Hp & _ & HN & HN').
      cbn [io.N io.R_ io.LimitReader io.pending view] in *.
      assert (Hshort : (length out <= length P1)%nat)
        by (unfold len in *; lia).
      exists (drop (length out) P1). split.
      * rewrite Hout at 1. rewrite take_app_le by exact Hshort.
        rewrite take_drop. reflexivity.
      * rewrite Hp. apply drop_app_le. exact Hshort.
    + unfold view. cbn [io.Reads].
      unfold io.Read, io.LimitedReader_Reader, io.LimitReader.
      cbn [io.N io.R_].
      destruct P1 as [| b P1].
      * cbn. reflexivity.
      * destruct (Z.leb_spec (len (b :: P1)) 0) as [Hz | _];
          [unfold len in Hz; cbn [length] in Hz; lia |].
        destruct (Z.ltb_spec (len (b :: P1)) (Z.of_nat (length (b :: P1))))
          as [Hlt | _]; [unfold len in Hlt; lia |].
        unfold io.Read, io.Stream_Reader. cbn [length io.pending io.closing].
        change ((b :: P1) ++ F2) with (b :: (P1 ++ F2)).
        change (length (b :: P1)) with (S (length P1)).
        cbn [take drop len].
        rewrite take_app_length, drop_app_length, app_nil_r.
        f_equal. f_equal. unfold len. cbn [length]. lia.
Qed.

Lemma C7_payload_view_witness :
  valid_codec (mkCodec 1024) /\
  HandleWrite (mkCodec 1024) (MsgBytes [104; 101; 108; 108; 111]) [] =
    ([[[5]; [104; 101; 108; 108; 111]]], Ok tt) /\
  HandleRead (mkCodec 1024)
    (MsgReader
       (io.mkStream ([5] ++ [104; 101; 108; 108; 111] ++ [2; 104; 105]) EOF))
    [] =
    ([] ++
     [ViewLimited
        (io.LimitReader
           (io.mkStream ([104; 101; 108; 108; 111] ++ [2; 104; 105]) EOF)
           (len [104; 101; 108; 108; 111]))], Ok tt) /\
  io.Reads
    (io.LimitReader
       (io.mkStream ([104; 101; 108; 108; 111] ++ [2; 104; 105]) EOF)
       (len [104; 101; 108; 108; 111]))
    [length [104; 101; 108; 108; 111]] =
    (io.LimitReader (io.mkStream [2; 104; 105] EOF) 0,
     [104; 101; 108; 108; 111]).
Proof.
  assert (Hv : valid_codec (mkCodec 1024))
    by (apply valid_codec_of; unfold MaxInt; lia).
  assert (Henc : HandleWrite (mkCodec 1024)
                   (MsgBytes [104; 101; 108; 108; 111]) [] =
                 ([[[5]; [104; 101; 108; 108; 111]]], Ok tt))
    by reflexivity.
  destruct (C7_payload_view (mkCodec 1024) Hv) as (_ & _ & Htwo).
  destruct (Htwo [104; 101; 108; 108; 111] [5] [2; 104; 105] EOF [] Henc)
    as (Hrun & _ & Hread).
  split; [exact Hv |]. split; [exact Henc |].
  split; [exact Hrun | exact Hread].
Defined.

(** * Further properties of the codec *)

(** ** The encoder, case by case *)

Lemma HandleWrite_success (v : varintLengthFieldCodec) (message : Message)
    (fired fired' : list (list (list Z))) :
  valid_codec v ->
  HandleWrite v message fired = (fired', Ok tt) ->
  exists P,
    fired' = fired ++ [[varint (len P); P]] /\
    len P <= maxFrameLength v /\
    match message with
    | MsgBytes r => P = r
    | MsgReader s => P = io.pending s /\ io.closing s = EOF
    | MsgOther _ => False
    end.
Proof.
  intros Hv Hrun. destruct message as [s | r | T].
  - rewrite HandleWrite_stream in Hrun.
    destruct (io.closing s) eqn:Hc; cbn [is_EOF] in Hrun;
      try discriminate Hrun.
    destruct (HandleWrite_bytes_success v _ _ _ Hv Hrun) as [Hfit ->].
    exists (io.pending s). auto.
  - destruct (HandleWrite_bytes_success v _ _ _ Hv Hrun) as [Hfit ->].
    exists r. auto.
  - discriminate Hrun.
Qed.

Lemma is_EOF_false (e : error) : is_EOF e = false <-> e <> EOF.
Proof. destruct e; cbn; split; congruence. Qed.

(** X1. The constructor panics on a bound that is not positive; for a
    positive [int] it returns the codec with that bound, and this codec
    encodes a byte slice exactly when the slice is no longer than the
    bound. *)
Theorem X1_constructor_bound (m : Z) :
  is_int m ->
  (m <= 0 -> VarintLengthFieldCodec m = Panic InvalidMaxFrameLength) /\
  (0 < m ->
   exists v,
     VarintLengthFieldCodec m = Ok v /\ maxFrameLength v = m /\
     forall P fired,
       (exists out, HandleWrite v (MsgBytes P) fired = (out, Ok tt)) <->
       len P <= m).
Proof.
  intros Hm. unfold VarintLengthFieldCodec. split; intros Hsign.
  - destruct (Z.leb_spec m 0); [reflexivity | lia].
  - destruct (Z.leb_spec m 0); [lia |].
    exists (mkCodec m). split; [reflexivity |]. split; [reflexivity |].
    assert (Hv : valid_codec (mkCodec m))
      by (apply valid_codec_of; unfold is_int in Hm; lia).
    intros P fired. split.
    + intros [out Hrun].
      apply (HandleWrite_bytes_success _ _ _ _ Hv Hrun).
    + intros Hfit. eexists. apply HandleWrite_fits; [exact Hv | exact Hfit].
Qed.

Lemma X1_constructor_bound_witness :
  is_int 100 /\
  VarintLengthFieldCodec 100 = Ok (mkCodec 100) /\
  exists v,
    VarintLengthFieldCodec 100 = Ok v /\ maxFrameLength v = 100 /\
    forall P fired,
      (exists out, HandleWrite v (MsgBytes P) fired = (out, Ok tt)) <->
      len P <= 100.
Proof.
  assert (Hm : is_int 100) by (unfold is_int, MaxInt; lia).
  split; [exact Hm |]. split; [reflexivity |].
  apply (X1_constructor_bound 100 Hm). lia.
Defined.

(** X2. [HandleWrite] has four outcomes and no other: an unsupported message
    type; the error of a stream whose drain fails, whatever the stream held;
    [FrameTooLarge] for a resolved payload above the bound; or success, with
    exactly one message, the header and the payload, added to what was handed
    on before.  In the three failures nothing is handed on, and no run-time
    panic (index or slice bound) is possible. *)
Theorem X2_HandleWrite_outcomes (v : varintLengthFieldCodec)
    (message : Message) (fired : list (list (list Z))) :
  valid_codec v ->
  let m := maxFrameLength v in
  let payload_case (P : list Z) :=
    if m <? len P
    then HandleWrite v message fired = (fired, Panic (FrameTooLarge (len P) m))
    else exists header,
           HandleWrite v message fired = (fired ++ [[header; P]], Ok tt) /\
           Uvarint header = (len P, len header) in
  match message with
  | MsgOther T =>
      HandleWrite v message fired = (fired, Panic (UnsupportedMessageType T))
  | MsgBytes r => payload_case r
  | MsgReader s =>
      if is_EOF (io.closing s) then payload_case (io.pending s)
      else HandleWrite v message fired = (fired, Panic (io.closing s))
  end.
Proof.
  intros Hv m payload_case.
  destruct (valid_codec_bounds v Hv) as [Hm _]. fold m in Hm.
  assert (Hbytes : forall r,
            if m <? len r
            then HandleWrite v (MsgBytes r) fired =
                   (fired, Panic (FrameTooLarge (len r) m))
            else exists header,
                   HandleWrite v (MsgBytes r) fired =
                     (fired ++ [[header; r]], Ok tt) /\
                   Uvarint header = (len r, len header)).
  { intros r. destruct (Z.ltb_spec m (len r)) as [Hbig | Hfit].
    - apply HandleWrite_too_large. exact Hbig.
    - exists (varint (len r)).
      split; [apply HandleWrite_fits; assumption |].
      pose proof (Uvarint_varint (len r) []) as Hdec.
      rewrite app_nil_r in Hdec. apply Hdec.
      unfold is_uint64, len, MaxInt in *. lia. }
  destruct message as [s | r | T]; [| apply Hbytes | reflexivity].
  rewrite HandleWrite_stream. unfold payload_case.
  rewrite HandleWrite_stream.
  destruct (is_EOF (io.closing s)); [apply Hbytes | reflexivity].
Qed.

Lemma X2_HandleWrite_outcomes_witness :
  valid_codec (mkCodec 4) /\
  HandleWrite (mkCodec 4)
    (MsgReader (io.mkStream [1; 2; 3; 4; 5; 6] (ErrSource "reset"))) [] =
    ([], Panic (ErrSource "reset")).
Proof.
  assert (Hv : valid_codec (mkCodec 4))
    by (apply valid_codec_of; unfold MaxInt; lia).
  split; [exact Hv |].
  apply (X2_HandleWrite_outcomes (mkCodec 4)
           (MsgReader (io.mkStream [1; 2; 3; 4; 5; 6] (ErrSource "reset")))
           [] Hv).
Defined.

(** ** The size of a header *)

Lemma varint_length_pos (x : Z) : (1 <= length (varint x))%nat.
Proof.
  destruct (Z_le_dec 128 x).
  - rewrite varint_ge by lia. cbn [length]. lia.
  - rewrite varint_lt by lia. cbn [length]. lia.
Qed.

(** An encoding of [k] bytes or fewer holds a value below [2^(7k)]. *)
Lemma varint_length_value (k : nat) :
  forall x, 0 <= x -> (length (varint x) <= S k)%nat ->
            x < 2 ^ (7 * Z.of_nat (S k)).
Proof.
  induction k as [| k IH]; intros x Hx Hlen.
  - change (2 ^ (7 * Z.of_nat 1)) with 128.
    destruct (Z_le_dec 128 x) as [Hge | Hlt]; [| lia].
    rewrite varint_ge in Hlen by lia. cbn [length] in Hlen.
    pose proof (varint_length_pos (Z.shiftr x 7)). lia.
  - replace (7 * Z.of_nat (S (S k))) with (7 + 7 * Z.of_nat (S k)) by lia.
    rewrite Z.pow_add_r by lia. change (2 ^ 7) with 128.
    assert (Hpow : 0 < 2 ^ (7 * Z.of_nat (S k)))
      by (apply Z.pow_pos_nonneg; lia).
    destruct (Z_le_dec 128 x) as [Hge | Hlt]; [| nia].
    rewrite varint_ge in Hlen by lia. cbn [length] in Hlen.
    assert (Hq : x / 128 < 2 ^ (7 * Z.of_nat (S k))).
    { rewrite <- shiftr_7. apply IH; [| lia].
      rewrite shiftr_7. apply Z.div_pos; lia. }
    pose proof (Z.div_mod x 128 ltac:(lia)) as Hd.
    pose proof (Z.mod_pos_bound x 128 ltac:(lia)) as Hr.
    nia.
Qed.

(** Without room for the whole encoding the write runs off the buffer. *)
Lemma PutUvarint_loop_no_room (buf : list Z) (i : nat) (x : Z) :
  (length buf < i + length (varint x))%nat ->
  PutUvarint_loop buf i x = None.
Proof.
  funelim (PutUvarint_loop buf i x); intros Hroom; clear Heqcall.
  - rewrite varint_ge in Hroom by lia. cbn [length] in Hroom.
    destruct (Nat.ltb_spec i (length buf)); [| reflexivity].
    apply H. rewrite length_insert. lia.
  - rewrite varint_lt in Hroom by lia. cbn [length] in Hroom.
    destruct (Nat.ltb_spec i (length buf)); [lia | reflexivity].
Qed.

(** X7. [PutUvarint] into a buffer of [k >= 1] bytes succeeds exactly for
    the values below [2^(7k)], and then writes at most [k] bytes; for a
    larger value it panics with an index out of range.  Ten bytes are
    enough for every [uint64], nine are not. *)
Theorem X7_PutUvarint_room (V : Z) (k : nat) :
  0 <= V -> (1 <= k)%nat ->
  ((exists buf' n,
      PutUvarint (repeat 0 k) V = Some (buf', n) /\ (1 <= n <= k)%nat) <->
   V < 2 ^ (7 * Z.of_nat k)) /\
  (PutUvarint (repeat 0 k) V = None <-> 2 ^ (7 * Z.of_nat k) <= V).
Proof.
  intros HV Hk. destruct k as [| k]; [lia |]. clear Hk.
  unfold PutUvarint.
  destruct (Nat.le_gt_cases (length (varint V)) (S k)) as [Hfits | Hbig].
  - assert (Hlt : V < 2 ^ (7 * Z.of_nat (S k)))
      by (apply varint_length_value; assumption).
    destruct (PutUvarint_loop_varint (repeat 0 (S k)) 0 V)
      as (buf' & Hput & _ & _); [rewrite repeat_length; exact Hfits |].
    cbn [Nat.add] in Hput. rewrite Hput.
    pose proof (varint_length_pos V) as Hpos.
    split; split; intros H; try exact Hlt; try discriminate H; try lia.
    exists buf', (length (varint V)). split; [reflexivity | lia].
  - assert (Hge : 2 ^ (7 * Z.of_nat (S k)) <= V).
    { destruct (Z.lt_ge_cases V (2 ^ (7 * Z.of_nat (S k)))) as [Hlt | Hge];
        [| exact Hge].
      pose proof (varint_length_bound k V (conj HV Hlt)). lia. }
    rewrite PutUvarint_loop_no_room by (rewrite repeat_length; lia).
    split; split; intros H; try reflexivity; try exact Hge; try lia.
    destruct H as (buf' & n & Hput & _). discriminate Hput.
Qed.

Lemma X7_PutUvarint_room_witness :
  0 <= 2 ^ 64 - 1 /\ (1 <= 9)%nat /\
  PutUvarint (repeat 0 9) (2 ^ 64 - 1) = None /\
  exists buf' n,
    PutUvarint (repeat 0 MaxVarintLen64) (2 ^ 64 - 1) = Some (buf', n) /\
    (1 <= n <= MaxVarintLen64)%nat.
Proof.
  assert (HV : 0 <= 2 ^ 64 - 1) by lia.
  assert (H9 : (1 <= 9)%nat) by lia.
  assert (H10 : (1 <= MaxVarintLen64)%nat) by (unfold MaxVarintLen64; lia).
  split; [exact HV |]. split; [exact H9 |]. split.
  - apply (X7_PutUvarint_room (2 ^ 64 - 1) 9 HV H9). vm_compute. discriminate.
  - apply (X7_PutUvarint_room (2 ^ 64 - 1) MaxVarintLen64 HV H10).
    vm_compute. reflexivity.
Defined.

(** X6. The header of every successful encode is between one and nine bytes
    long (a length is an [int], below [2^63]), each of them a byte; a payload
    shorter than 128 bytes gets the one-byte header that is its length, a
    longer one gets at least two bytes. *)
Theorem X6_header_size (v : varintLengthFieldCodec) (message : Message)
    (fired fired' : list (list (list Z))) :
  valid_codec v ->
  HandleWrite v message fired = (fired', Ok tt) ->
  exists header payload : list Z,
    fired' = fired ++ [[header; payload]] /\
    (1 <= length header <= 9)%nat /\
    Forall is_byte header /\
    (len payload < 128 -> header = [len payload]) /\
    (128 <= len payload -> (2 <= length header)%nat).
Proof.
  intros Hv Hrun. destruct (valid_codec_bounds v Hv) as [Hm _].
  destruct (HandleWrite_success v message fired fired' Hv Hrun)
    as (P & -> & Hfit & _).
  exists (varint (len P)), P. split; [reflexivity |].
  assert (HP : 0 <= len P) by (unfold len; lia).
  split; [split; [apply varint_length_pos |] |].
  { apply (varint_length_bound 8). split; [exact HP |].
    change (2 ^ (7 * Z.of_nat 9)) with (MaxInt + 1). lia. }
  split.
  { destruct (varint_shape (len P) HP) as (front & final & -> & Hf & Hl).
    apply Forall_app. split.
    - eapply Forall_impl; [exact Hf |]. cbv beta. unfold is_byte. lia.
    - constructor; [unfold is_byte; lia | constructor]. }
  split.
  - intros Hsmall. rewrite varint_lt by exact Hsmall.
    unfold byte. rewrite Z.mod_small by lia. reflexivity.
  - intros Hlong. rewrite varint_ge by exact Hlong. cbn [length].
    pose proof (varint_length_pos (Z.shiftr (len P) 7)). lia.
Qed.

Lemma X6_header_size_witness :
  valid_codec (mkCodec 1024) /\
  HandleWrite (mkCodec 1024) (MsgBytes (repeat 9 300)) [] =
    ([[[172; 2]; repeat 9 300]], Ok tt) /\
  exists header payload : list Z,
    [[[172; 2]; repeat 9 300]] = [] ++ [[header; payload]] /\
    (1 <= length header <= 9)%nat /\
    Forall is_byte header /\
    (len payload < 128 -> header = [len payload]) /\
    (128 <= len payload -> (2 <= length header)%nat).
Proof.
  assert (Hv : valid_codec (mkCodec 1024))
    by (apply valid_codec_of; unfold MaxInt; lia).
  assert (Hrun : HandleWrite (mkCodec 1024) (MsgBytes (repeat 9 300)) [] =
                 ([[[172; 2]; repeat 9 300]], Ok tt))
    by (vm_compute; reflexivity).
  split; [exact Hv |]. split; [exact Hrun |].
  apply (X6_header_size (mkCodec 1024) (MsgBytes (repeat 9 300)) [] _
           Hv Hrun).
Defined.

(** ** The decoder, case by case *)

Lemma ReadByte_nil (c : error) :
  io.ReadByte (ByteReader := utils.NewByteReader) (io.mkStream [] c) =
  (io.mkStream [] c, inr c).
Proof. reflexivity. Qed.

(** The errors [ReadUvarint] can return on a stream. *)
Lemma ReadUvarint_loop_error (k : nat) :
  forall (i : nat) (s s' : io.Stream) (x sh fl : Z) (e : error),
    ReadUvarint_loop (H := utils.NewByteReader) k i s x sh =
      (s', (fl, Some e)) ->
    e = errOverflow \/ e = ErrUnexpectedEOF \/ e = io.closing s.
Proof.
  induction k as [| k IH]; intros i s s' x sh fl e Hrun;
    cbn [ReadUvarint_loop] in Hrun.
  - inversion Hrun. auto.
  - destruct s as [[| b tl] c].
    + rewrite ReadByte_nil in Hrun. inversion Hrun. cbn [io.closing].
      destruct ((0 <? i)%nat && is_EOF c)%bool; auto.
    + rewrite ReadByte_cons in Hrun. cbn [io.closing].
      destruct (b <? 128).
      * destruct ((i =? MaxVarintLen64 - 1)%nat && (1 <? b))%bool;
          inversion Hrun; auto.
      * apply IH in Hrun. exact Hrun.
Qed.

(** Where the slice [r[n:]] is reached, [n] is within the buffer. *)
Lemma slice_reached_in_range (v : varintLengthFieldCodec) (r : list Z)
    (fl n : Z) :
  valid_codec v -> len r <= MaxInt -> Uvarint r = (fl, n) ->
  (uint64 (maxFrameLength v) <? fl) = false ->
  (int64 fl =? int64 (len r - n)) = true ->
  0 <= n <= len r /\ fl = len r - n /\ fl <= maxFrameLength v.
Proof.
  intros Hv Hr Hdec Hfit Heq. destruct (valid_codec_bounds v Hv) as [Hm Hu].
  destruct (Uvarint_result r fl n Hdec) as [Hfl Hcases].
  assert (Hlen0 : 0 <= len r) by (unfold len; lia).
  rewrite Hu in Hfit. apply Z.ltb_ge in Hfit. apply Z.eqb_eq in Heq.
  rewrite (int64_small fl) in Heq by (unfold is_int, MaxInt in *; lia).
  assert (Hrange : 0 <= n <= len r).
  { destruct Hcases as [[-> ->] | [[-> Hneg] | Hpos]]; [lia | | lia].
    exfalso. unfold int64, MaxInt in *. Z.div_mod_to_equations. lia. }
  rewrite int64_small in Heq by (unfold is_int, MaxInt in *; lia).
  auto.
Qed.

(** X3. [HandleRead] either succeeds, adding exactly one view to what was
    handed on before, or panics with nothing handed on; on a buffer the panic
    is [IncompletePacket] or [FrameTooLarge], on a stream it is the error of
    the varint read (overflow, an unexpected end, or the stream's own error)
    or [FrameTooLarge], never [IncompletePacket], and on any other message it
    is [UnsupportedMessageType]; there is no run-time panic. *)
Theorem X3_HandleRead_outcomes (v : varintLengthFieldCodec)
    (message : Message) (fired : list View) :
  valid_codec v ->
  (forall r, message = MsgBytes r -> len r <= MaxInt) ->
  (exists view, HandleRead v message fired = (fired ++ [view], Ok tt)) \/
  (exists e,
     HandleRead v message fired = (fired, Panic e) /\
     match message with
     | MsgBytes _ =>
         e = IncompletePacket \/
         exists fl, e = FrameTooLarge fl (maxFrameLength v) /\
                    maxFrameLength v < fl
     | MsgReader s =>
         e = errOverflow \/ e = ErrUnexpectedEOF \/ e = io.closing s \/
         exists fl, e = FrameTooLarge fl (maxFrameLength v) /\
                    maxFrameLength v < fl
     | MsgOther T => e = UnsupportedMessageType T
     end).
Proof.
  intros Hv Hslice. destruct (valid_codec_bounds v Hv) as [Hm Hu].
  destruct message as [s | r | T].
  - rewrite HandleRead_stream, Hu.
    destruct (ReadUvarint s) as [s' [fl [e |]]] eqn:Hdec.
    + right. exists e. split; [reflexivity |].
      unfold ReadUvarint in Hdec. apply ReadUvarint_loop_error in Hdec.
      tauto.
    + destruct (Z.ltb_spec (maxFrameLength v) fl) as [Hbig | Hfit].
      * right. eexists. split; [reflexivity |]. right. right. right.
        exists fl. auto.
      * left. eexists. reflexivity.
  - specialize (Hslice r eq_refl).
    rewrite HandleRead_bytes.
    destruct (Uvarint r) as [fl n] eqn:Hdec.
    destruct (uint64 (maxFrameLength v) <? fl) eqn:Hbig.
    { right. eexists. split; [reflexivity |]. right. exists fl.
      rewrite Hu in Hbig. apply Z.ltb_lt in Hbig. auto. }
    destruct (int64 fl =? int64 (len r - n)) eqn:Heq.
    + destruct (slice_reached_in_range v r fl n Hv Hslice Hdec Hbig Heq)
        as (Hrange & _ & _).
      rewrite slice_from_in_range by exact Hrange.
      left. eexists. reflexivity.
    + right. eexists. split; [reflexivity |]. left. reflexivity.
  - right. eexists. split; [reflexivity | reflexivity].
Qed.

Lemma X3_HandleRead_outcomes_witness :
  valid_codec (mkCodec 4) /\
  (forall r, MsgBytes [200; 1; 0] = MsgBytes r -> len r <= MaxInt) /\
  HandleRead (mkCodec 4) (MsgBytes [200; 1; 0]) [] =
    ([], Panic (FrameTooLarge 200 4)) /\
  ((exists view,
      HandleRead (mkCodec 4) (MsgBytes [200; 1; 0]) [] =
        ([] ++ [view], Ok tt)) \/
   (exists e,
      HandleRead (mkCodec 4) (MsgBytes [200; 1; 0]) [] = ([], Panic e) /\
      (e = IncompletePacket \/
       exists fl, e = FrameTooLarge fl (maxFrameLength (mkCodec 4)) /\
                  maxFrameLength (mkCodec 4) < fl))).
Proof.
  assert (Hv : valid_codec (mkCodec 4))
    by (apply valid_codec_of; unfold MaxInt; lia).
  assert (Hslice : forall r, MsgBytes [200; 1; 0] = MsgBytes r ->
                             len r <= MaxInt).
  { intros r Hr. inversion Hr. unfold len, MaxInt. simpl. lia. }
  split; [exact Hv |]. split; [exact Hslice |]. split; [reflexivity |].
  apply (X3_HandleRead_outcomes (mkCodec 4) (MsgBytes [200; 1; 0]) []
           Hv Hslice).
Defined.

(** A stream of continuation bytes alone: the read ends at the end of the
    data, or after the maximum width. *)
Lemma ReadUvarint_loop_unterminated (k : nat) :
  forall (bs : list Z) (i : nat) (x sh : Z) (c : error),
    Forall (fun b => 128 <= b < 256) bs ->
    exists s' fl,
      ReadUvarint_loop (H := utils.NewByteReader) k i (io.mkStream bs c) x sh =
      (s', (fl,
            Some (if (length bs <? k)%nat
                  then if ((0 <? i + length bs)%nat && is_EOF c)%bool
                       then ErrUnexpectedEOF else c
                  else errOverflow))).
Proof.
  induction k as [| k IH]; intros bs i x sh c Hall; cbn [ReadUvarint_loop].
  - destruct bs; eexists; eexists; reflexivity.
  - destruct bs as [| b tl].
    + rewrite ReadByte_nil. cbn [length]. rewrite Nat.add_0_r.
      eexists; eexists; reflexivity.
    + rewrite ReadByte_cons. inversion Hall as [| ? ? Hb Htl]; subst.
      destruct (Z.ltb_spec b 128) as [Hc | _]; [lia |].
      destruct (IH tl (S i) (Z.lor x (shl64 (Z.land b 127) sh)) (sh + 7) c Htl)
        as (s' & fl & Hrun).
      exists s', fl. rewrite Hrun. cbn [length].
      replace (i + S (length tl))%nat with (S i + length tl)%nat by lia.
      reflexivity.
Qed.

(** X4. On a stream that holds continuation bytes alone, [HandleRead] panics
    with nothing handed on: with [errOverflow] when there are ten of them or
    more; otherwise with the stream's own error, or, when that is a clean
    end of data after at least one byte, with [ErrUnexpectedEOF].  The empty
    stream with a clean end gives [EOF]. *)
Theorem X4_stream_prefix_errors (v : varintLengthFieldCodec) (bs : list Z)
    (c : error) (fired : list View) :
  Forall (fun b => 128 <= b < 256) bs ->
  HandleRead v (MsgReader (io.mkStream bs c)) fired =
  (fired,
   Panic (if (length bs <? MaxVarintLen64)%nat
          then if (negb (length bs =? 0)%nat && is_EOF c)%bool
               then ErrUnexpectedEOF else c
          else errOverflow)).
Proof.
  intros Hall. rewrite HandleRead_stream. unfold ReadUvarint.
  destruct (ReadUvarint_loop_unterminated MaxVarintLen64 bs 0 0 0 c Hall)
    as (s' & fl & ->).
  cbn [Nat.add].
  replace (0 <? length bs)%nat with (negb (length bs =? 0)%nat)
    by (destruct bs; reflexivity).
  reflexivity.
Qed.

Lemma X4_stream_prefix_errors_witness :
  Forall (fun b => 128 <= b < 256) [172; 130] /\
  HandleRead (mkCodec 1024) (MsgReader (io.mkStream [172; 130] EOF)) [] =
    ([], Panic ErrUnexpectedEOF).
Proof.
  assert (Hall : Forall (fun b => 128 <= b < 256) [172; 130])
    by (repeat (constructor; [lia |]); constructor).
  split; [exact Hall |].
  apply (X4_stream_prefix_errors (mkCodec 1024) [172; 130] EOF [] Hall).
Defined.

(** ** The two input shapes agree *)

(** Where [Uvarint] reads a value from the front of a buffer, [ReadUvarint]
    reads the same value from a stream of the same bytes and stops right
    after it. *)
Lemma Uvarint_loop_ReadUvarint_loop (buf : list Z) :
  forall (i k : nat) (x sh fl n : Z) (rest : list Z) (c : error),
    0 <= x ->
    Uvarint_loop buf i x sh = (fl, n) ->
    (i + k = MaxVarintLen64)%nat -> Z.of_nat i < n ->
    ReadUvarint_loop (H := utils.NewByteReader) k i
      (io.mkStream (buf ++ rest) c) x sh =
    (io.mkStream (drop (Z.to_nat n - i) buf ++ rest) c, (fl, None)).
Proof.
  unfold MaxVarintLen64.
  induction buf as [| b tl IH]; intros i k x sh fl n rest c Hx Hdec Hk Hn;
    cbn [Uvarint_loop] in Hdec.
  - inversion Hdec. lia.
  - destruct (Nat.eqb_spec i MaxVarintLen64) as [E | Hi];
      [inversion Hdec; lia |].
    unfold MaxVarintLen64 in Hi.
    destruct k as [| k]; [lia |].
    cbn [ReadUvarint_loop]. change ((b :: tl) ++ rest) with (b :: tl ++ rest).
    rewrite ReadByte_cons.
    destruct (b <? 128).
    + destruct ((i =? MaxVarintLen64 - 1)%nat && (1 <? b))%bool;
        inversion Hdec; subst; [lia |].
      replace (Z.to_nat (Z.of_nat i + 1) - i)%nat with 1%nat by lia.
      reflexivity.
    + assert (Hx' : 0 <= Z.lor x (shl64 (Z.land b 127) sh))
        by (apply lor_shl64_nonneg; exact Hx).
      pose proof (Uvarint_loop_result tl (S i) _ _ fl n Hx' Hdec)
        as [_ Hcases].
      assert (Hn' : Z.of_nat (S i) < n) by lia.
      rewrite (IH (S i) k _ _ fl n rest c Hx' Hdec ltac:(lia) Hn').
      replace (Z.to_nat n - i)%nat with (S (Z.to_nat n - S i)) by lia.
      reflexivity.
Qed.

(** X9. When [HandleRead] accepts a non-empty buffer, it accepts the stream
    that holds the same bytes, whatever follows them: the stream's view is
    bounded by the length of the buffer's payload and stands at that
    payload. *)
Theorem X9_buffer_stream_agree (v : varintLengthFieldCodec) (r : list Z)
    (fired_b fired_b' : list View) :
  valid_codec v -> len r <= MaxInt -> r <> [] ->
  HandleRead v (MsgBytes r) fired_b = (fired_b', Ok tt) ->
  exists P,
    fired_b' = fired_b ++ [ViewBytes (bytes.NewReader P)] /\
    forall rest c fired_s,
      HandleRead v (MsgReader (io.mkStream (r ++ rest) c)) fired_s =
      (fired_s ++
       [ViewLimited (io.LimitReader (io.mkStream (P ++ rest) c) (len P))],
       Ok tt).
Proof.
  intros Hv Hr Hne Hrun. destruct (valid_codec_bounds v Hv) as [Hm Hu].
  destruct (Uvarint r) as [fl n] eqn:Hdec.
  destruct (HandleRead_bytes_success v r fl n _ _ Hv Hr Hdec Hrun)
    as (Hrange & Hfl & ->).
  exists (drop (Z.to_nat n) r). split; [reflexivity |].
  intros rest c fired_s.
  assert (Hpos : 0 < n).
  { destruct (Uvarint_result r fl n Hdec) as [_ [[-> ->] | [[_ Hneg] | Hp]]];
      [| lia | lia].
    exfalso. apply Hne. destruct r; [reflexivity |].
    unfold len in Hfl. cbn [length] in Hfl. lia. }
  assert (Hfit : fl <= maxFrameLength v).
  { rewrite HandleRead_bytes, Hdec, Hu in Hrun.
    destruct (Z.ltb_spec (maxFrameLength v) fl); [discriminate Hrun | lia]. }
  rewrite HandleRead_stream, Hu. unfold ReadUvarint, Uvarint in *.
  rewrite (Uvarint_loop_ReadUvarint_loop r 0 MaxVarintLen64 0 0 fl n rest c)
    by (try exact Hdec; try reflexivity; lia).
  rewrite Nat.sub_0_r.
  destruct (Z.ltb_spec (maxFrameLength v) fl); [lia |].
  rewrite len_drop by exact Hrange.
  rewrite int64_small by (unfold is_int, MaxInt in *; lia).
  rewrite Hfl. reflexivity.
Qed.

Lemma X9_buffer_stream_agree_witness :
  valid_codec (mkCodec 1024) /\
  len [133; 0; 104; 101; 108; 108; 111] <= MaxInt /\
  [133; 0; 104; 101; 108; 108; 111] <> [] /\
  HandleRead (mkCodec 1024) (MsgBytes [133; 0; 104; 101; 108; 108; 111]) [] =
    ([ViewBytes (bytes.NewReader [104; 101; 108; 108; 111])], Ok tt) /\
  exists P,
    [ViewBytes (bytes.NewReader [104; 101; 108; 108; 111])] =
      [] ++ [ViewBytes (bytes.NewReader P)] /\
    forall rest c fired_s,
      HandleRead (mkCodec 1024)
        (MsgReader
           (io.mkStream ([133; 0; 104; 101; 108; 108; 111] ++ rest) c))
        fired_s =
      (fired_s ++
       [ViewLimited (io.LimitReader (io.mkStream (P ++ rest) c) (len P))],
       Ok tt).
Proof.
  assert (Hv : valid_codec (mkCodec 1024))
    by (apply valid_codec_of; unfold MaxInt; lia).
  assert (Hr : len [133; 0; 104; 101; 108; 108; 111] <= MaxInt)
    by (unfold len, MaxInt; simpl; lia).
  assert (Hne : [133; 0; 104; 101; 108; 108; 111] <> []) by discriminate.
  assert (Hrun : HandleRead (mkCodec 1024)
                   (MsgBytes [133; 0; 104; 101; 108; 108; 111]) [] =
                 ([ViewBytes (bytes.NewReader [104; 101; 108; 108; 111])],
                  Ok tt)) by reflexivity.
  split; [exact Hv |]. split; [exact Hr |]. split; [exact Hne |].
  split; [exact Hrun |].
  apply (X9_buffer_stream_agree (mkCodec 1024)
           [133; 0; 104; 101; 108; 108; 111] [] _ Hv Hr Hne Hrun).
Defined.

(** ** Frames on the wire *)

(** X8. Framing is unambiguous: when the frames of two payloads, each
    followed by anything, are the same bytes, the payloads are equal, and so
    are the headers and what follows. *)
Theorem X8_unique_parsing (v : varintLengthFieldCodec)
    (P1 P2 h1 h2 rest1 rest2 : list Z) :
  valid_codec v ->
  HandleWrite v (MsgBytes P1) [] = ([[h1; P1]], Ok tt) ->
  HandleWrite v (MsgBytes P2) [] = ([[h2; P2]], Ok tt) ->
  h1 ++ P1 ++ rest1 = h2 ++ P2 ++ rest2 ->
  h1 = h2 /\ P1 = P2 /\ rest1 = rest2.
Proof.
  intros Hv Hw1 Hw2 Hsame. destruct (valid_codec_bounds v Hv) as [Hm _].
  destruct (HandleWrite_bytes_success v P1 [] _ Hv Hw1) as [Hfit1 Hh1].
  destruct (HandleWrite_bytes_success v P2 [] _ Hv Hw2) as [Hfit2 Hh2].
  assert (E1 : h1 = varint (len P1)) by (inversion Hh1; reflexivity).
  assert (E2 : h2 = varint (len P2)) by (inversion Hh2; reflexivity).
  subst h1 h2.
  assert (Hu1 : is_uint64 (len P1))
    by (unfold is_uint64, len, MaxInt in *; lia).
  assert (Hu2 : is_uint64 (len P2))
    by (unfold is_uint64, len, MaxInt in *; lia).
  pose proof (Uvarint_varint (len P1) (P1 ++ rest1) Hu1) as D1.
  pose proof (Uvarint_varint (len P2) (P2 ++ rest2) Hu2) as D2.
  rewrite Hsame, D2 in D1.
  assert (Hlen : len P1 = len P2) by (inversion D1; reflexivity).
  rewrite Hlen in Hsame. apply app_inv_head in Hsame.
  apply app_inj_1 in Hsame; [| unfold len in Hlen; lia].
  destruct Hsame as [-> ->]. auto.
Qed.

Lemma X8_unique_parsing_witness :
  valid_codec (mkCodec 1024) /\
  HandleWrite (mkCodec 1024) (MsgBytes [104; 105]) [] =
    ([[[2]; [104; 105]]], Ok tt) /\
  [2] ++ [104; 105] ++ [7; 7] = [2] ++ [104; 105] ++ [7; 7] /\
  [2] = [2] /\ [104; 105] = [104; 105] /\ [7; 7] = [7; 7].
Proof.
  assert (Hv : valid_codec (mkCodec 1024))
    by (apply valid_codec_of; unfold MaxInt; lia).
  assert (Hw : HandleWrite (mkCodec 1024) (MsgBytes [104; 105]) [] =
               ([[[2]; [104; 105]]], Ok tt)) by reflexivity.
  assert (Hsame : [2] ++ [104; 105] ++ [7; 7] = [2] ++ [104; 105] ++ [7; 7])
    by reflexivity.
  split; [exact Hv |]. split; [exact Hw |]. split; [exact Hsame |].
  apply (X8_unique_parsing (mkCodec 1024) [104; 105] [104; 105] [2] [2]
           [7; 7] [7; 7] Hv Hw Hw Hsame).
Defined.

(** X10. Whatever [HandleRead] accepts from a buffer can be sent again: the
    payload of the view is within the bound, [HandleWrite] encodes it, and
    decoding that frame gives the same view.  (The frame need not be the
    buffer the payload came from.) *)
Theorem X10_decoded_payload_encodes (v : varintLengthFieldCodec)
    (r : list Z) (fired fired' : list View)
    (fired_w : list (list (list Z))) :
  valid_codec v -> len r <= MaxInt ->
  HandleRead v (MsgBytes r) fired = (fired', Ok tt) ->
  exists P header,
    fired' = fired ++ [ViewBytes (bytes.NewReader P)] /\
    len P <= maxFrameLength v /\
    HandleWrite v (MsgBytes P) fired_w = (fired_w ++ [[header; P]], Ok tt) /\
    HandleRead v (MsgBytes (header ++ P)) fired = (fired', Ok tt).
Proof.
  intros Hv Hr Hrun. destruct (valid_codec_bounds v Hv) as [Hm Hu].
  destruct (Uvarint r) as [fl n] eqn:Hdec.
  destruct (HandleRead_bytes_success v r fl n _ _ Hv Hr Hdec Hrun)
    as (Hrange & Hfl & Hfired).
  assert (Hfit : fl <= maxFrameLength v).
  { rewrite HandleRead_bytes, Hdec, Hu in Hrun.
    destruct (Z.ltb_spec (maxFrameLength v) fl); [discriminate Hrun | lia]. }
  assert (HP : len (drop (Z.to_nat n) r) <= maxFrameLength v)
    by (rewrite len_drop by exact Hrange; lia).
  exists (drop (Z.to_nat n) r), (varint (len (drop (Z.to_nat n) r))).
  split; [exact Hfired |]. split; [exact HP |].
  split; [apply HandleWrite_fits; assumption |].
  rewrite Hfired. apply HandleRead_frame; assumption.
Qed.

Lemma X10_decoded_payload_encodes_witness :
  valid_codec (mkCodec 1024) /\
  len [133; 0; 104; 101; 108; 108; 111] <= MaxInt /\
  HandleRead (mkCodec 1024) (MsgBytes [133; 0; 104; 101; 108; 108; 111]) [] =
    ([ViewBytes (bytes.NewReader [104; 101; 108; 108; 111])], Ok tt) /\
  exists P header,
    [ViewBytes (bytes.NewReader [104; 101; 108; 108; 111])] =
      [] ++ [ViewBytes (bytes.NewReader P)] /\
    len P <= maxFrameLength (mkCodec 1024) /\
    HandleWrite (mkCodec 1024) (MsgBytes P) [] =
      ([] ++ [[header; P]], Ok tt) /\
    HandleRead (mkCodec 1024) (MsgBytes (header ++ P)) [] =
      ([ViewBytes (bytes.NewReader [104; 101; 108; 108; 111])], Ok tt).
Proof.
  assert (Hv : valid_codec (mkCodec 1024))
    by (apply valid_codec_of; unfold MaxInt; lia).
  assert (Hr : len [133; 0; 104; 101; 108; 108; 111] <= MaxInt)
    by (unfold len, MaxInt; simpl; lia).
  assert (Hrun : HandleRead (mkCodec 1024)
                   (MsgBytes [133; 0; 104; 101; 108; 108; 111]) [] =
                 ([ViewBytes (bytes.NewReader [104; 101; 108; 108; 111])],
                  Ok tt)) by reflexivity.
  split; [exact Hv |]. split; [exact Hr |]. split; [exact Hrun |].
  apply (X10_decoded_payload_encodes (mkCodec 1024)
           [133; 0; 104; 101; 108; 108; 111] [] _ [] Hv Hr Hrun).
Defined.

(** One [Read] of the payload's length takes the payload from the view and
    uses the bound up. *)
Lemma LimitedReader_read_payload (P F : list Z) (c : error) :
  io.Reads (io.LimitReader (io.mkStream (P ++ F) c) (len P)) [length P] =
  (io.LimitReader (io.mkStream F c) 0, P).
Proof.
  cbn [io.Reads].
  unfold io.Read, io.LimitedReader_Reader, io.LimitReader.
  cbn [io.N io.R_].
  destruct P as [| b P]; [cbn; reflexivity |].
  destruct (Z.leb_spec (len (b :: P)) 0) as [Hz | _];
    [unfold len in Hz; cbn [length] in Hz; lia |].
  destruct (Z.ltb_spec (len (b :: P)) (Z.of_nat (length (b :: P))))
    as [Hlt | _]; [unfold len in Hlt; lia |].
  unfold io.Read, io.Stream_Reader. cbn [length io.pending io.closing].
  change ((b :: P) ++ F) with (b :: (P ++ F)).
  cbn [take drop len].
  rewrite take_app_length, drop_app_length, app_nil_r.
  f_equal. f_equal. unfold len. cbn [length]. lia.
Qed.

(** X11. Two frames sent one after the other are received one after the
    other from the same stream: decoding, reading the payload from the view
    and decoding again gives the first payload, then the second, and leaves
    the stream at what follows the second frame. *)
Theorem X11_frames_in_sequence (v : varintLengthFieldCodec)
    (P1 P2 rest : list Z) (c : error)
    (sent : list (list (list Z))) (fired1 fired2 : list View) :
  valid_codec v ->
  (HandleWrite v (MsgBytes P1) ;; HandleWrite v (MsgBytes P2))%handler [] =
    (sent, Ok tt) ->
  exists s1 s2,
    HandleRead v (MsgReader (io.mkStream (concat (concat sent) ++ rest) c))
      fired1 =
      (fired1 ++ [ViewLimited (io.LimitReader s1 (len P1))], Ok tt) /\
    io.Reads (io.LimitReader s1 (len P1)) [length P1] =
      (io.LimitReader s2 0, P1) /\
    HandleRead v (MsgReader s2) fired2 =
      (fired2 ++
       [ViewLimited (io.LimitReader (io.mkStream (P2 ++ rest) c) (len P2))],
       Ok tt) /\
    io.Reads (io.LimitReader (io.mkStream (P2 ++ rest) c) (len P2))
      [length P2] =
      (io.LimitReader (io.mkStream rest c) 0, P2).
Proof.
  intros Hv Hsent. destruct (valid_codec_bounds v Hv) as [Hm _].
  unfold bind in Hsent.
  destruct (HandleWrite v (MsgBytes P1) []) as [out1 [[] | e]] eqn:Hw1;
    [| discriminate Hsent].
  destruct (HandleWrite_bytes_success v P1 [] _ Hv Hw1) as [Hfit1 ->].
  destruct (HandleWrite_bytes_success v P2 _ _ Hv Hsent) as [Hfit2 ->].
  assert (HP1 : 0 <= len P1) by (unfold len; lia).
  assert (HP2 : 0 <= len P2) by (unfold len; lia).
  exists (io.mkStream (P1 ++ varint (len P2) ++ P2 ++ rest) c),
         (io.mkStream (varint (len P2) ++ P2 ++ rest) c).
  cbn [app concat]. rewrite !app_nil_r, <- !app_assoc.
  split; [apply HandleRead_stream_frame; [exact Hv | lia] |].
  split; [apply LimitedReader_read_payload |].
  split; [apply HandleRead_stream_frame; [exact Hv | lia] |].
  apply LimitedReader_read_payload.
Qed.

Lemma X11_frames_in_sequence_witness :
  valid_codec (mkCodec 1024) /\
  (HandleWrite (mkCodec 1024) (MsgBytes [104; 105]) ;;
   HandleWrite (mkCodec 1024) (MsgBytes [121; 111; 117]))%handler [] =
    ([[[2]; [104; 105]]; [[3]; [121; 111; 117]]], Ok tt) /\
  exists s1 s2,
    HandleRead (mkCodec 1024)
      (MsgReader
         (io.mkStream
            (concat (concat [[[2]; [104; 105]]; [[3]; [121; 111; 117]]]) ++
             [9]) EOF)) [] =
      ([] ++ [ViewLimited (io.LimitReader s1 (len [104; 105]))], Ok tt) /\
    io.Reads (io.LimitReader s1 (len [104; 105])) [length [104; 105]] =
      (io.LimitReader s2 0, [104; 105]) /\
    HandleRead (mkCodec 1024) (MsgReader s2) [] =
      ([] ++
       [ViewLimited
          (io.LimitReader (io.mkStream ([121; 111; 117] ++ [9]) EOF)
             (len [121; 111; 117]))], Ok tt) /\
    io.Reads
      (io.LimitReader (io.mkStream ([121; 111; 117] ++ [9]) EOF)
         (len [121; 111; 117])) [length [121; 111; 117]] =
      (io.LimitReader (io.mkStream [9] EOF) 0, [121; 111; 117]).
Proof.
  assert (Hv : valid_codec (mkCodec 1024))
    by (apply valid_codec_of; unfold MaxInt; lia).
  assert (Hsent : (HandleWrite (mkCodec 1024) (MsgBytes [104; 105]) ;;
                   HandleWrite (mkCodec 1024) (MsgBytes [121; 111; 117]))
                    %handler [] =
                  ([[[2]; [104; 105]]; [[3]; [121; 111; 117]]], Ok tt))
    by reflexivity.
  split; [exact Hv |]. split; [exact Hsent |].
  apply (X11_frames_in_sequence (mkCodec 1024) [104; 105] [121; 111; 117]
           [9] EOF _ [] [] Hv Hsent).
Defined.

(** X5. A payload drained from a stream makes the round trip as well: for a
    stream that ends cleanly and holds no more than the bound,
    [HandleWrite] hands on the header and the drained bytes, and the frame
    is decoded to those bytes both from a buffer and from a stream, where
    one read of the view returns them and leaves what follows the frame. *)
Theorem X5_stream_roundtrip (v : varintLengthFieldCodec) (P rest : list Z)
    (c : error) (fired_w : list (list (list Z))) (fired_b fired_s : list View) :
  valid_codec v -> len P <= maxFrameLength v ->
  exists header,
    HandleWrite v (MsgReader (io.mkStream P EOF)) fired_w =
      (fired_w ++ [[header; P]], Ok tt) /\
    HandleRead v (MsgBytes (header ++ P)) fired_b =
      (fired_b ++ [ViewBytes (bytes.NewReader P)], Ok tt) /\
    HandleRead v (MsgReader (io.mkStream (header ++ P ++ rest) c)) fired_s =
      (fired_s ++
       [ViewLimited (io.LimitReader (io.mkStream (P ++ rest) c) (len P))],
       Ok tt) /\
    io.Reads (io.LimitReader (io.mkStream (P ++ rest) c) (len P))
      [length P] =
      (io.LimitReader (io.mkStream rest c) 0, P).
Proof.
  intros Hv Hfit. exists (varint (len P)).
  assert (HP : 0 <= len P) by (unfold len; lia).
  split.
  { rewrite HandleWrite_stream. cbn [io.closing io.pending is_EOF].
    apply HandleWrite_fits; assumption. }
  split; [apply HandleRead_frame; assumption |].
  split; [apply HandleRead_stream_frame; [exact Hv | lia] |].
  apply LimitedReader_read_payload.
Qed.

Lemma X5_stream_roundtrip_witness :
  valid_codec (mkCodec 1024) /\
  len [104; 105] <= maxFrameLength (mkCodec 1024) /\
  exists header,
    HandleWrite (mkCodec 1024) (MsgReader (io.mkStream [104; 105] EOF)) [] =
      ([] ++ [[header; [104; 105]]], Ok tt) /\
    HandleRead (mkCodec 1024) (MsgBytes (header ++ [104; 105])) [] =
      ([] ++ [ViewBytes (bytes.NewReader [104; 105])], Ok tt) /\
    HandleRead (mkCodec 1024)
      (MsgReader (io.mkStream (header ++ [104; 105] ++ [9]) EOF)) [] =
      ([] ++
       [ViewLimited
          (io.LimitReader (io.mkStream ([104; 105] ++ [9]) EOF)
             (len [104; 105]))], Ok tt) /\
    io.Reads
      (io.LimitReader (io.mkStream ([104; 105] ++ [9]) EOF) (len [104; 105]))
      [length [104; 105]] =
      (io.LimitReader (io.mkStream [9] EOF) 0, [104; 105]).
Proof.
  assert (Hv : valid_codec (mkCodec 1024))
    by (apply valid_codec_of; unfold MaxInt; lia).
  assert (Hfit : len [104; 105] <= maxFrameLength (mkCodec 1024))
    by (unfold len; simpl; lia).
  split; [exact Hv |]. split; [exact Hfit |].
  apply (X5_stream_roundtrip (mkCodec 1024) [104; 105] [9] EOF [] [] []
           Hv Hfit).
Defined.

(** X12. A frame cut short is caught on a buffer and not on a stream: with
    only the first [j] bytes of an encoded payload after its header,
    [HandleRead] of the buffer panics with [IncompletePacket], while
    [HandleRead] of the stream succeeds with a view bounded by the declared
    length, from which no sequence of reads obtains more than the bytes that
    are there. *)
Theorem X12_truncated_frame (v : varintLengthFieldCodec)
    (P header : list Z) (j : nat) (c : error) (fired : list View) :
  valid_codec v ->
  HandleWrite v (MsgBytes P) [] = ([[header; P]], Ok tt) ->
  (j < length P)%nat ->
  HandleRead v (MsgBytes (header ++ take j P)) fired =
    (fired, Panic IncompletePacket) /\
  HandleRead v (MsgReader (io.mkStream (header ++ take j P) c)) fired =
    (fired ++
     [ViewLimited (io.LimitReader (io.mkStream (take j P) c) (len P))],
     Ok tt) /\
  forall ks l' out,
    io.Reads (io.LimitReader (io.mkStream (take j P) c) (len P)) ks =
      (l', out) ->
    out = take (length out) (take j P) /\ len out < len P.
Proof.
  intros Hv Henc Hj. destruct (valid_codec_bounds v Hv) as [Hm Hu].
  destruct (HandleWrite_bytes_success v P [] _ Hv Henc) as [Hfit Hhdr].
  assert (Hheader : header = varint (len P)) by (inversion Hhdr; reflexivity).
  subst header. clear Henc Hhdr.
  assert (HP : 0 <= len P) by (unfold len; lia).
  assert (Hcut : len (take j P) = Z.of_nat j)
    by (unfold len; rewrite length_take; lia).
  split; [| split].
  - rewrite HandleRead_bytes, Hu.
    rewrite Uvarint_varint by (unfold is_uint64, MaxInt in *; lia).
    destruct (Z.ltb_spec (maxFrameLength v) (len P)); [lia |].
    replace (len (varint (len P) ++ take j P) - len (varint (len P)))
      with (len (take j P)) by (unfold len; rewrite length_app; lia).
    rewrite !int64_small by (unfold is_int, MaxInt, len in *; lia).
    destruct (Z.eqb_spec (len P) (len (take j P))) as [Heq | _];
      [unfold len in *; lia | reflexivity].
  - apply HandleRead_stream_frame; [exact Hv | lia].
  - intros ks l' out Hreads.
    assert (Hbound : 0 <= io.N (io.LimitReader (io.mkStream (take j P) c)
                                  (len P))) by (cbn; lia).
    destruct (LimitedReader_Reads_prefix ks _ l' out Hbound Hreads)
      as (Hout & _).
    cbn [io.R_ io.LimitReader io.pending] in Hout.
    split; [exact Hout |].
    assert (Hshort : (length out <= length (take j P))%nat).
    { rewrite Hout at 1. rewrite length_take. lia. }
    unfold len in *. lia.
Qed.

Lemma X12_truncated_frame_witness :
  valid_codec (mkCodec 1024) /\
  HandleWrite (mkCodec 1024) (MsgBytes [104; 101; 108; 108; 111]) [] =
    ([[[5]; [104; 101; 108; 108; 111]]], Ok tt) /\
  (3 < length [104; 101; 108; 108; 111])%nat /\
  HandleRead (mkCodec 1024)
    (MsgBytes ([5] ++ take 3 [104; 101; 108; 108; 111])) [] =
    ([], Panic IncompletePacket) /\
  HandleRead (mkCodec 1024)
    (MsgReader (io.mkStream ([5] ++ take 3 [104; 101; 108; 108; 111]) EOF))
    [] =
    ([] ++
     [ViewLimited
        (io.LimitReader (io.mkStream (take 3 [104; 101; 108; 108; 111]) EOF)
           (len [104; 101; 108; 108; 111]))], Ok tt).
Proof.
  assert (Hv : valid_codec (mkCodec 1024))
    by (apply valid_codec_of; unfold MaxInt; lia).
  assert (Henc : HandleWrite (mkCodec 1024)
                   (MsgBytes [104; 101; 108; 108; 111]) [] =
                 ([[[5]; [104; 101; 108; 108; 111]]], Ok tt))
    by reflexivity.
  assert (Hj : (3 < length [104; 101; 108; 108; 111])%nat) by (simpl; lia).
  destruct (X12_truncated_frame (mkCodec 1024) [104; 101; 108; 108; 111] [5]
              3 EOF [] Hv Henc Hj) as (Hbuf & Hstream & _).
  split; [exact Hv |]. split; [exact Henc |]. split; [exact Hj |].
  split; [exact Hbuf | exact Hstream].
Defined.

(** X13. The decoder does not insist on the shortest prefix: a payload of
    fewer than 128 bytes within the bound is also accepted behind the
    two-byte prefix made of its length with the continuation bit set and a
    zero byte, a frame [HandleWrite] never produces. *)
Theorem X13_padded_prefix (v : varintLengthFieldCodec) (P : list Z)
    (fired : list View) (fired_w : list (list (list Z))) :
  valid_codec v -> len P < 128 -> len P <= maxFrameLength v ->
  Uvarint ([len P + 128; 0] ++ P) = (len P, 2) /\
  HandleRead v (MsgBytes ([len P + 128; 0] ++ P)) fired =
    (fired ++ [ViewBytes (bytes.NewReader P)], Ok tt) /\
  HandleWrite v (MsgBytes P) fired_w = (fired_w ++ [[[len P]; P]], Ok tt).
Proof.
  intros Hv Hsmall Hfit. destruct (valid_codec_bounds v Hv) as [Hm Hu].
  assert (HP : 0 <= len P) by (unfold len; lia).
  assert (Hdec : Uvarint ([len P + 128; 0] ++ P) = (len P, 2)).
  { unfold Uvarint. cbn [app Uvarint_loop Nat.eqb MaxVarintLen64 Nat.sub andb].
    destruct (Z.ltb_spec (len P + 128) 128) as [Hc | _]; [lia |].
    cbn [Z.ltb Z.compare Z.of_nat Z.add Pos.of_succ_nat Pos.succ
           Pos.add Z.opp].
    change 127 with (Z.ones 7). rewrite Z.land_ones by lia.
    change (2 ^ 7) with 128.
    replace ((len P + 128) mod 128) with (len P)
      by (Z.div_mod_to_equations; lia).
    unfold shl64, uint64. rewrite Z.shiftl_0_r, Z.shiftl_0_l.
    rewrite (Z.mod_small (len P)) by lia.
    change (0 mod 2 ^ 64) with 0. rewrite Z.lor_0_l, Z.lor_0_r.
    reflexivity. }
  split; [exact Hdec |]. split.
  - rewrite HandleRead_bytes, Hdec, Hu.
    destruct (Z.ltb_spec (maxFrameLength v) (len P)); [lia |].
    replace (len ([len P + 128; 0] ++ P) - 2) with (len P)
      by (unfold len; rewrite length_app; cbn [length]; lia).
    rewrite Z.eqb_refl.
    rewrite slice_from_in_range
      by (unfold len; rewrite length_app; cbn [length]; lia).
    reflexivity.
  - rewrite HandleWrite_fits by assumption.
    rewrite varint_lt by exact Hsmall.
    unfold byte. rewrite Z.mod_small by lia. reflexivity.
Qed.

Lemma X13_padded_prefix_witness :
  valid_codec (mkCodec 1024) /\
  len [104; 105] < 128 /\
  len [104; 105] <= maxFrameLength (mkCodec 1024) /\
  Uvarint ([len [104; 105] + 128; 0] ++ [104; 105]) = (len [104; 105], 2) /\
  HandleRead (mkCodec 1024)
    (MsgBytes ([len [104; 105] + 128; 0] ++ [104; 105])) [] =
    ([] ++ [ViewBytes (bytes.NewReader [104; 105])], Ok tt) /\
  HandleWrite (mkCodec 1024) (MsgBytes [104; 105]) [] =
    ([] ++ [[[len [104; 105]]; [104; 105]]], Ok tt).
Proof.
  assert (Hv : valid_codec (mkCodec 1024))
    by (apply valid_codec_of; unfold MaxInt; lia).
  assert (Hsmall : len [104; 105] < 128) by (unfold len; simpl; lia).
  assert (Hfit : len [104; 105] <= maxFrameLength (mkCodec 1024))
    by (unfold len; simpl; lia).
  split; [exact Hv |]. split; [exact Hsmall |]. split; [exact Hfit |].
  apply (X13_padded_prefix (mkCodec 1024) [104; 105] [] [] Hv Hsmall Hfit).
Defined.
